(** * Normal and LogNormal distributions of statrs (src/distribution/normal.rs)

    The Rust [f64] values are modelled by Rocq's primitive binary64 floats
    ([PrimFloat.float]), whose operations [+ - * / sqrt], comparisons and
    [is_nan] are IEEE-754 with round-to-nearest-even; their meaning is given
    by [Prim2SF] into [SpecFloat]. The transcendental functions the code
    calls ([f64::exp], [f64::ln] and statrs' [erf::erfc]) are parameters,
    gathered in type classes; each theorem lists the IEEE special values of
    them it relies on. *)

From Stdlib Require Import ZArith Bool Lia Reals Lra.
From Stdlib Require Import Floats.

Open Scope list_scope.
Open Scope float_scope.

(** ** Errors and results (src/error.rs, src/result.rs) *)

Inductive StatsError := BadParams.

Inductive result (A : Type) : Type :=
| Ok (a : A)
| Err (e : StatsError).
Arguments Ok {A} a.
Arguments Err {A} e.

(** ** Constants *)

(** Modelled from the spec: [consts::SQRT_2PI], [consts::LN_SQRT_2PI] and
    [consts::LN_SQRT_2PIE] of src/consts.rs (not under src/): sqrt(2 pi),
    ln(sqrt(2 pi)) and ln(sqrt(2 pi e)), rounded to binary64. *)
Module consts.
Definition SQRT_2PI : float := 0x1.40d931ff62706p+1. (* 2.5066282746310007 *)
Definition LN_SQRT_2PI : float := 0x1.d67f1c864beb5p-1. (* 0.91893853320467278 *)
Definition LN_SQRT_2PIE : float := 0x1.6b3f8e4325f5ap+0. (* 1.4189385332046727 *)
End consts.

(** [f64::consts::SQRT_2]. *)
Definition SQRT_2 : float := 0x1.6a09e667f3bcdp+0. (* 1.4142135623730951 *)

(** ** External functions *)

(** The [f64] methods [exp] and [ln] of Rust's standard library. *)
Class F64Math := {
  exp : float -> float;
  ln : float -> float
}.

(** statrs' [functions::erf::erfc]. *)
Class Erf := {
  erfc : float -> float
}.

(** The uniform source: [Rng::next_f64] as explicit state passing. *)
Class Rng (St : Type) := {
  next_f64 : St -> float * St
}.

(** ** The shared sampling engine *)

Section Sampling.
Context `{F64Math}.

(** [fn polar_transform(a, b) -> (f64, f64, bool)]. *)
Definition polar_transform (a b : float) : float * float * bool :=
  let v1 := 2 * a - 1 in
  let v2 := 2 * b - 1 in
  let r := v1 * v2 + v2 * v2 in
  if (1 <=? r) || (r =? 0) then (0, 0, false)
  else
    let fac := sqrt (-2 * ln r / r) in
    (v1 * fac, v2 * fac, true).

Context {St : Type} `{Rng St}.

(** The [while !tuple.2] loop of [sample_unchecked]; it is unbounded in the
    source, so it runs here on fuel, [None] meaning the fuel ran out. *)
Fixpoint polar_loop (fuel : nat) (tuple : float * float * bool) (s : St)
  : option (float * St) :=
  let '(d1, _, ok) := tuple in
  if ok then Some (d1, s)
  else match fuel with
       | O => None
       | S fuel' =>
           let '(a, s1) := next_f64 s in
           let '(b, s2) := next_f64 s1 in
           polar_loop fuel' (polar_transform a b) s2
       end.

(** [pub fn sample_unchecked(r, mean, std_dev) -> f64]: the arguments of
    the first [polar_transform] are drawn left to right. *)
Definition sample_unchecked (fuel : nat) (s : St) (mean std_dev : float)
  : option (float * St) :=
  let '(a, s1) := next_f64 s in
  let '(b, s2) := next_f64 s1 in
  match polar_loop fuel (polar_transform a b) s2 with
  | Some (t, s') => Some (mean + std_dev * t, s')
  | None => None
  end.

End Sampling.

(** ** [struct Normal] *)

Module Normal.

Record Normal := mk { mu : float; sigma : float }.

Definition new (mean std_dev : float) : result Normal :=
  if is_nan mean || is_nan std_dev || (std_dev <=? 0) then Err BadParams
  else Ok {| mu := mean; sigma := std_dev |}.

Section Methods.
Context `{F64Math} `{Erf}.
Variable self : Normal.

Definition sample {St} `{Rng St} (fuel : nat) (r : St) : option (float * St) :=
  sample_unchecked fuel r self.(mu) self.(sigma).

Definition mean : float := self.(mu).
Definition variance : float := self.(sigma) * self.(sigma).
Definition std_dev : float := self.(sigma).
Definition entropy : float := ln self.(sigma) + consts.LN_SQRT_2PIE.
Definition skewness : float := 0.
Definition median : option float := Some self.(mu).
Definition cdf (x : float) : result float :=
  Ok (0.5 * erfc ((self.(mu) - x) / (self.(sigma) * SQRT_2))).

Definition mode : float := self.(mu).
Definition min : float := neg_infinity.
Definition max : float := infinity.
Definition pdf (x : float) : float :=
  let d := (x - self.(mu)) / self.(sigma) in
  exp (-0.5 * d * d) / (consts.SQRT_2PI * self.(sigma)).
Definition ln_pdf (x : float) : float :=
  let d := (x - self.(mu)) / self.(sigma) in
  (-0.5 * d * d) - consts.LN_SQRT_2PI - ln self.(sigma).

End Methods.
End Normal.

(** ** [struct LogNormal] *)

Module LogNormal.

Record LogNormal := mk { mu : float; sigma : float }.

Definition new (mean std_dev : float) : result LogNormal :=
  if is_nan mean || is_nan std_dev || (std_dev <=? 0) then Err BadParams
  else Ok {| mu := mean; sigma := std_dev |}.

Section Methods.
Context `{F64Math} `{Erf}.
Variable self : LogNormal.

Definition sample {St} `{Rng St} (fuel : nat) (r : St) : option (float * St) :=
  match sample_unchecked fuel r self.(mu) self.(sigma) with
  | Some (x, r') => Some (exp x, r')
  | None => None
  end.

Definition mean : float := exp (self.(mu) + self.(sigma) * self.(sigma) / 2).
Definition variance : float :=
  let sigma2 := self.(sigma) * self.(sigma) in
  (exp sigma2 - 1) * exp (self.(mu) + self.(mu) + sigma2).
Definition std_dev : float := sqrt variance.
Definition entropy : float := 0.5 + ln self.(sigma) + self.(mu) + consts.LN_SQRT_2PI.
Definition skewness : float :=
  let expsigma2 := exp (self.(sigma) * self.(sigma)) in
  (expsigma2 + 2) * sqrt (expsigma2 - 1).
Definition median : option float := Some (exp self.(mu)).
Definition cdf (x : float) : result float :=
  if x <? 0 then Ok 0
  else Ok (0.5 * erfc ((self.(mu) - ln x) / (self.(sigma) * SQRT_2))).

Definition mode : float := exp (self.(mu) - self.(sigma) * self.(sigma)).
Definition min : float := 0.
Definition max : float := infinity.
Definition pdf (x : float) : float :=
  if x <? 0 then 0
  else
    let d := (ln x - self.(mu)) / self.(sigma) in
    exp (-0.5 * d * d) / (x * consts.SQRT_2PI * self.(sigma)).
Definition ln_pdf (x : float) : float :=
  if x <? 0 then neg_infinity
  else
    let d := (ln x - self.(mu)) / self.(sigma) in
    (-0.5 * d * d) - consts.LN_SQRT_2PI - ln (x * self.(sigma)).

End Methods.
End LogNormal.

(** ** Reference implementations of the external functions

    The theorems below hold for any [F64Math] and [Erf] meeting the special
    values they assume. The concrete inputs of the witnesses and
    counterexamples are evaluated with these implementations, which follow
    the IEEE-754 / C99 Annex F special cases of [exp], [log] and [erfc]
    (NaN propagation, [exp(-inf) = 0], [log(+-0) = -inf], [log] of a negative
    number is NaN, [erfc(+inf) = 0], [erfc(-inf) = 2]) and approximate the
    functions elsewhere. *)
Module Libm.

Local Set Warnings "-inexact-float".

(** Horner form of the degree-[n] Taylor polynomial of [exp y]. *)
Fixpoint exp_horner (n : nat) (k y acc : float) : float :=
  match n with
  | O => acc
  | S m => exp_horner m (k - 1) y (1 + y * acc / k)
  end.

(** Halve the argument until it is small, then square back. *)
Fixpoint exp_reduce (fuel : nat) (y : float) : float :=
  match fuel with
  | O => exp_horner 16 16 y 1
  | S f =>
      if abs y <=? 0.125 then exp_horner 16 16 y 1
      else let e := exp_reduce f (y / 2) in e * e
  end.

Definition exp_model (x : float) : float :=
  if is_nan x then nan
  else if x <? -745.2 then 0
  else if 709.8 <? x then infinity
  else exp_reduce 16 x.

Definition LN2 : float := 0x1.62e42fefa39efp-1.

Definition float_of_Z (z : Z) : float :=
  if (z <? 0)%Z then - of_uint63 (Uint63.of_Z (- z)) else of_uint63 (Uint63.of_Z z).

(** [atanh t = t * (1 + t^2/3 + t^4/5 + ...)], 21 terms. *)
Fixpoint atanh_horner (n : nat) (k t2 acc : float) : float :=
  match n with
  | O => acc
  | S m => atanh_horner m (k - 2) t2 (1 / k + t2 * acc)
  end.

(** [ln x = 2 atanh((m-1)/(m+1)) + e ln 2] for [x = m * 2^e], with
    [m] in [[sqrt(1/2), sqrt 2)]. *)
Definition ln_model (x : float) : float :=
  if is_nan x || (x <? 0) then nan
  else if x =? 0 then neg_infinity
  else if x =? infinity then infinity
  else
    let '(m0, e0) := FloatOps.Z.frexp x in
    let '(m, e) := if m0 <? 0x1.6a09e667f3bcdp-1 then (2 * m0, (e0 - 1)%Z) else (m0, e0) in
    let t := (m - 1) / (m + 1) in
    2 * (t * atanh_horner 21 41 (t * t) 0) + float_of_Z e * LN2.

(** The rational approximation of [erfc] of Numerical Recipes ([erfcc]). *)
Definition erfc_model (x : float) : float :=
  if is_nan x then nan
  else if x =? 0 then 1
  else
    let z := abs x in
    let t := 1 / (1 + 0.5 * z) in
    let ans := t * exp_model (- z * z - 1.26551223 + t * (1.00002368 + t * (0.37409196
                 + t * (0.09678418 + t * (-0.18628806 + t * (0.27886807
                 + t * (-1.13520398 + t * (1.48851587 + t * (-0.82215223
                 + t * 0.17087277))))))))) in
    if 0 <=? x then ans else 2 - ans.

Definition f64_math : F64Math := {| exp := exp_model; ln := ln_model |}.
Definition erf : Erf := {| erfc := erfc_model |}.

End Libm.

(** A finite sequence of uniform draws as the source: [next_f64] yields the
    head of the list (an exhausted list yields [0]). *)
#[export] Instance list_rng : Rng (list float) := {|
  next_f64 s := match s with nil => (0, nil) | x :: r => (x, r) end
|}.

(** The textbook acceptance test of Marsaglia's polar method, from the
    spec's words (sec. 4.4): radius [v1^2 + v2^2], accepted when [0 < r < 1]. *)
Definition marsaglia_accepts (a b : float) : bool :=
  let v1 := 2 * a - 1 in
  let v2 := 2 * b - 1 in
  let r := v1 * v1 + v2 * v2 in
  (0 <? r) && (r <? 1).

(** ** Facts on binary64 *)

Lemma SFcompare_refl_finite s m e :
  SFcompare (S754_finite s m e) (S754_finite s m e) = Some Eq.
Proof.
  simpl. rewrite Z.compare_refl, Pos.compare_cont_refl.
  destruct s; reflexivity.
Qed.

Lemma is_nan_spec x : is_nan x = true <-> Prim2SF x = S754_nan.
Proof.
  unfold is_nan. rewrite eqb_spec. unfold SFeqb.
  destruct (Prim2SF x) as [s|s| |s m e]; try rewrite SFcompare_refl_finite;
    try (destruct s); simpl; split; congruence.
Qed.

Ltac nan_of_sf :=
  apply is_nan_spec;
  rewrite ?add_spec, ?sub_spec, ?mul_spec, ?div_spec, ?sqrt_spec, ?opp_spec.

Lemma nan_add_l x y : is_nan x = true -> is_nan (x + y) = true.
Proof. intros Hx%is_nan_spec. nan_of_sf. rewrite Hx. reflexivity. Qed.
Lemma nan_add_r x y : is_nan y = true -> is_nan (x + y) = true.
Proof. intros Hy%is_nan_spec. nan_of_sf. rewrite Hy. now destruct (Prim2SF x). Qed.
Lemma nan_sub_l x y : is_nan x = true -> is_nan (x - y) = true.
Proof. intros Hx%is_nan_spec. nan_of_sf. rewrite Hx. reflexivity. Qed.
Lemma nan_sub_r x y : is_nan y = true -> is_nan (x - y) = true.
Proof. intros Hy%is_nan_spec. nan_of_sf. rewrite Hy. now destruct (Prim2SF x). Qed.
Lemma nan_mul_l x y : is_nan x = true -> is_nan (x * y) = true.
Proof. intros Hx%is_nan_spec. nan_of_sf. rewrite Hx. reflexivity. Qed.
Lemma nan_mul_r x y : is_nan y = true -> is_nan (x * y) = true.
Proof. intros Hy%is_nan_spec. nan_of_sf. rewrite Hy. now destruct (Prim2SF x). Qed.
Lemma nan_div_l x y : is_nan x = true -> is_nan (x / y) = true.
Proof. intros Hx%is_nan_spec. nan_of_sf. rewrite Hx. reflexivity. Qed.
Lemma nan_div_r x y : is_nan y = true -> is_nan (x / y) = true.
Proof. intros Hy%is_nan_spec. nan_of_sf. rewrite Hy. now destruct (Prim2SF x). Qed.
Lemma nan_sqrt x : is_nan x = true -> is_nan (sqrt x) = true.
Proof. intros Hx%is_nan_spec. nan_of_sf. rewrite Hx. reflexivity. Qed.

Create HintDb nanprop.
#[export] Hint Resolve nan_add_l nan_add_r nan_sub_l nan_sub_r nan_mul_l nan_mul_r
  nan_div_l nan_div_r nan_sqrt : nanprop.

(** ** The polar transform *)

(** C1: the acceptance radius of [polar_transform] is [v1 * v2 + v2 * v2],
    not Marsaglia's [v1^2 + v2^2]: at [a = 0.75, b = 0.25] the code's
    radius is [0] and the pair is discarded, while the Marsaglia radius is
    [0.5] and the textbook method accepts it. *)
Theorem polar_transform_radius_not_marsaglia `{M : F64Math} :
  let v1 := 2 * 0.75 - 1 in
  let v2 := 2 * 0.25 - 1 in
  v1 * v2 + v2 * v2 = 0 /\ v1 * v1 + v2 * v2 = 0.5 /\
  polar_transform 0.75 0.25 = (0, 0, false) /\ marsaglia_accepts 0.75 0.25 = true.
Proof. vm_compute. repeat split. Qed.

(** C2: the guard of [polar_transform] is [r >= 1 || r == 0]: a negative
    radius passes it. At [a = 0.25, b = 0.625] the radius is [-0.0625], the
    pair is accepted, and with an IEEE [ln] (NaN on a negative argument)
    [sample_unchecked] stops at that pair and returns NaN. *)
Theorem polar_transform_accepts_negative_radius `{M : F64Math}
    (mean std_dev : float) (fuel : nat) (rest : list float) :
  is_nan (ln (-0.0625)) = true ->
  (let v1 := 2 * 0.25 - 1 in let v2 := 2 * 0.625 - 1 in v1 * v2 + v2 * v2 = -0.0625) /\
  snd (polar_transform 0.25 0.625) = true /\
  exists x, sample_unchecked fuel (0.25 :: 0.625 :: rest) mean std_dev = Some (x, rest)
       /\ is_nan x = true.
Proof.
  intros Hln. split; [vm_compute; reflexivity|]. split; [vm_compute; reflexivity|].
  eexists. split.
  - unfold sample_unchecked. simpl next_f64. cbv beta iota.
    unfold polar_transform at 1. vm_compute (2 * 0.25 - 1). vm_compute (2 * 0.625 - 1).
    vm_compute (-0.5 * 0.25 + 0.25 * 0.25).
    vm_compute ((1 <=? -0.0625) || (-0.0625 =? 0)). cbv iota.
    destruct fuel; reflexivity.
  - auto 10 with nanprop.
Qed.

(** ** Construction *)

(** A binary64 value that is not a strictly positive number: a zero of
    either sign, a negative number or [-inf] (NaN excluded). *)
Definition sf_nonpositive (f : spec_float) : bool :=
  match f with
  | S754_zero _ | S754_infinity true | S754_finite true _ _ => true
  | _ => false
  end.

Definition invalid_params (mean std_dev : float) : Prop :=
  is_nan mean = true \/ is_nan std_dev = true \/ sf_nonpositive (Prim2SF std_dev) = true.

Lemma Prim2SF_zero : Prim2SF 0 = S754_zero false.
Proof. vm_compute. reflexivity. Qed.

Lemma leb_zero_nonpositive x :
  is_nan x = false -> (x <=? 0) = sf_nonpositive (Prim2SF x).
Proof.
  intros Hx. rewrite leb_spec, Prim2SF_zero.
  assert (Prim2SF x <> S754_nan) by (intros E; apply is_nan_spec in E; congruence).
  unfold SFleb. destruct (Prim2SF x) as [s|[|]| |[|] m e]; simpl; congruence.
Qed.

Lemma new_guard_iff (mean std_dev : float) :
  (is_nan mean || is_nan std_dev || (std_dev <=? 0)) = true <-> invalid_params mean std_dev.
Proof.
  unfold invalid_params.
  destruct (is_nan mean) eqn:Hm, (is_nan std_dev) eqn:Hs; simpl;
    try (split; auto; fail).
  rewrite leb_zero_nonpositive by assumption.
  split; [auto | intros [?|[?|?]]; congruence].
Qed.

(** C3: [Normal::new] and [LogNormal::new] return [Err(BadParams)] exactly
    when [mean] is NaN, [std_dev] is NaN, or [std_dev <= 0] ([std_dev] is
    [+-0], negative or [-inf]); otherwise they return [Ok] with [mu = mean]
    and [sigma = std_dev]. *)
Theorem new_err_iff_invalid (mean std_dev : float) :
  (Normal.new mean std_dev = Err BadParams <-> invalid_params mean std_dev) /\
  (Normal.new mean std_dev = Ok (Normal.mk mean std_dev) <-> ~ invalid_params mean std_dev) /\
  (LogNormal.new mean std_dev = Err BadParams <-> invalid_params mean std_dev) /\
  (LogNormal.new mean std_dev = Ok (LogNormal.mk mean std_dev) <-> ~ invalid_params mean std_dev).
Proof.
  pose proof (new_guard_iff mean std_dev) as G.
  unfold Normal.new, LogNormal.new.
  destruct (is_nan mean || is_nan std_dev || (std_dev <=? 0)).
  - assert (I : invalid_params mean std_dev) by (apply G; reflexivity).
    repeat split; auto; try discriminate; intros N; contradiction.
  - assert (I : ~ invalid_params mean std_dev) by (intros I%G; discriminate).
    repeat split; auto; try discriminate; intros; contradiction.
Qed.

(** ** The LogNormal boundary [x < 0] *)

(** C5: for [x < 0], [LogNormal::pdf] is [0], [cdf] is [Ok(0)] and
    [ln_pdf] is [-inf], whatever [exp], [ln] and [erfc] are. *)
Theorem lognormal_negative_x `{M : F64Math} `{E : Erf} (d : LogNormal.LogNormal) (x : float) :
  (x <? 0) = true ->
  LogNormal.pdf d x = 0 /\ LogNormal.cdf d x = Ok 0 /\ LogNormal.ln_pdf d x = neg_infinity.
Proof.
  intros Hx. unfold LogNormal.pdf, LogNormal.cdf, LogNormal.ln_pdf.
  rewrite Hx. auto.
Qed.

(** ** Sampling *)

(** C6: [LogNormal::sample] is [exp] of [Normal::sample] with the same
    [mu], [sigma] and the same source state: same draws, same final state
    (and the same non-termination when no pair is accepted). *)
Theorem lognormal_sample_exp_normal `{M : F64Math} {St} `{Rng St}
    (d : LogNormal.LogNormal) (fuel : nat) (r : St) :
  LogNormal.sample d fuel r =
  option_map (fun p => (exp (fst p), snd p))
    (Normal.sample (Normal.mk d.(LogNormal.mu) d.(LogNormal.sigma)) fuel r).
Proof.
  unfold LogNormal.sample, Normal.sample. simpl.
  destruct (sample_unchecked fuel r _ _) as [[x r']|]; reflexivity.
Qed.

(** ** [cdf] never fails *)

(** C7: [Normal::cdf] and [LogNormal::cdf] return [Ok] for every input. *)
Theorem cdf_always_ok `{M : F64Math} `{E : Erf} (n : Normal.Normal)
    (l : LogNormal.LogNormal) (x : float) :
  (exists v, Normal.cdf n x = Ok v) /\ (exists v, LogNormal.cdf l x = Ok v).
Proof.
  unfold Normal.cdf, LogNormal.cdf.
  split; [eexists; reflexivity|].
  destruct (x <? 0); eexists; reflexivity.
Qed.

(** ** Classification of binary64 values *)

Definition sf_finite (f : spec_float) : bool :=
  match f with S754_zero _ | S754_finite _ _ _ => true | _ => false end.

(** The value is not NaN and its sign bit is [s]. *)
Definition sf_sign_is (s : bool) (f : spec_float) : Prop :=
  match f with
  | S754_zero s' | S754_infinity s' | S754_finite s' _ _ => s' = s
  | S754_nan => False
  end.

Lemma Prim2SF_nan : Prim2SF nan = S754_nan.
Proof. vm_compute. reflexivity. Qed.
Lemma Prim2SF_infinity : Prim2SF infinity = S754_infinity false.
Proof. vm_compute. reflexivity. Qed.
Lemma Prim2SF_neg_infinity : Prim2SF neg_infinity = S754_infinity true.
Proof. vm_compute. reflexivity. Qed.

Lemma nan_eq x : is_nan x = true -> x = nan.
Proof.
  intros Hx%is_nan_spec. apply Prim2SF_inj. rewrite Hx, Prim2SF_nan. reflexivity.
Qed.

Lemma not_nan_spec x : is_nan x = false -> Prim2SF x <> S754_nan.
Proof. intros Hx E%is_nan_spec. congruence. Qed.

Lemma is_finite_spec x : is_finite x = sf_finite (Prim2SF x).
Proof.
  unfold is_finite, is_infinity.
  rewrite eqb_spec, abs_spec, Prim2SF_infinity.
  destruct (is_nan x) eqn:Hx.
  - apply is_nan_spec in Hx. rewrite Hx. reflexivity.
  - apply not_nan_spec in Hx.
    destruct (Prim2SF x) as [s|s| |s m e]; try congruence; reflexivity.
Qed.

Lemma finite_positive x :
  is_finite x = true -> (0 <? x) = true ->
  exists m e, Prim2SF x = S754_finite false m e.
Proof.
  rewrite is_finite_spec, ltb_spec, Prim2SF_zero.
  destruct (Prim2SF x) as [s|s| |[|] m e]; simpl; try discriminate; eauto.
Qed.

(** Rounding a non-negative mantissa never yields NaN and keeps the sign. *)
Lemma shr_1_nonneg r : (0 <= shr_m r)%Z -> (0 <= shr_m (shr_1 r))%Z.
Proof.
  destruct r as [m rr ss]; simpl. intros Hm.
  destruct m as [|[p|p|]|p]; simpl; lia.
Qed.

Lemma iter_pos_shr_1_nonneg n r :
  (0 <= shr_m r)%Z -> (0 <= shr_m (iter_pos shr_1 n r))%Z.
Proof.
  revert r. induction n; intros r Hr; simpl; auto using shr_1_nonneg.
Qed.

Lemma shr_fexp_nonneg p em m e l :
  (0 <= m)%Z -> (0 <= shr_m (fst (shr_fexp p em m e l)))%Z.
Proof.
  intros Hm. unfold shr_fexp, shr.
  destruct (fexp p em (Zdigits2 m + e) - e)%Z; simpl;
    try apply iter_pos_shr_1_nonneg; destruct l as [|[| |]]; simpl; assumption.
Qed.

Lemma round_nearest_even_nonneg m l : (0 <= m)%Z -> (0 <= round_nearest_even m l)%Z.
Proof.
  intros Hm. destruct l as [|[| |]]; simpl; try destruct (Z.even m); lia.
Qed.

Lemma binary_round_aux_sign p em sx mx ex lx :
  (0 <= mx)%Z -> sf_sign_is sx (binary_round_aux p em sx mx ex lx).
Proof.
  intros Hm. unfold binary_round_aux.
  destruct (shr_fexp p em mx ex lx) as [r1 e1] eqn:E1.
  assert (H1 : (0 <= shr_m r1)%Z)
    by (change r1 with (fst (r1, e1)); rewrite <- E1; apply shr_fexp_nonneg; lia).
  destruct (shr_fexp p em _ e1 loc_Exact) as [r2 e2] eqn:E2.
  assert (H2 : (0 <= shr_m r2)%Z).
  { change r2 with (fst (r2, e2)). rewrite <- E2.
    apply shr_fexp_nonneg, round_nearest_even_nonneg. assumption. }
  destruct (shr_m r2) as [|q|q]; simpl; [reflexivity| |lia].
  destruct (e2 <=? em - p)%Z; reflexivity.
Qed.

Lemma mul_positive_sign x y m1 e1 m2 e2 :
  Prim2SF x = S754_finite false m1 e1 -> Prim2SF y = S754_finite false m2 e2 ->
  sf_sign_is false (Prim2SF (x * y)).
Proof.
  intros Hx Hy. rewrite mul_spec, Hx, Hy. apply binary_round_aux_sign. lia.
Qed.

(** Floats are compared through [Prim2SF]. *)
Ltac sf_eq :=
  apply Prim2SF_inj;
  rewrite ?add_spec, ?sub_spec, ?mul_spec, ?div_spec, ?sqrt_spec, ?opp_spec,
    ?Prim2SF_zero, ?Prim2SF_infinity, ?Prim2SF_neg_infinity, ?Prim2SF_nan.

Lemma neg_infinity_spec x : Prim2SF x = S754_infinity true -> x = neg_infinity.
Proof. intros Hx. apply Prim2SF_inj. rewrite Hx, Prim2SF_neg_infinity. reflexivity. Qed.

Lemma neg_infinity_sub x :
  is_nan x = false -> x <> neg_infinity -> neg_infinity - x = neg_infinity.
Proof.
  intros Hn Hi. apply not_nan_spec in Hn. sf_eq. unfold SF64sub.
  destruct (Prim2SF x) as [s|[|]| |s m e] eqn:E; try reflexivity; try congruence.
  apply neg_infinity_spec in E. congruence.
Qed.

Lemma sub_neg_infinity x :
  is_nan x = false -> x <> neg_infinity -> x - neg_infinity = infinity.
Proof.
  intros Hn Hi. apply not_nan_spec in Hn. sf_eq. unfold SF64sub.
  destruct (Prim2SF x) as [s|[|]| |s m e] eqn:E; try reflexivity; try congruence.
  apply neg_infinity_spec in E. congruence.
Qed.

Lemma neg_infinity_div_positive x m e :
  Prim2SF x = S754_finite false m e -> neg_infinity / x = neg_infinity.
Proof. intros Hx. sf_eq. rewrite Hx. reflexivity. Qed.

Lemma infinity_div_positive y :
  sf_sign_is false (Prim2SF y) -> sf_finite (Prim2SF y) = true -> infinity / y = infinity.
Proof.
  intros Hs Hf. sf_eq. unfold SF64div.
  destruct (Prim2SF y); simpl in *; subst; try reflexivity; try discriminate; contradiction.
Qed.

Lemma zero_mul_positive x m e :
  Prim2SF x = S754_finite false m e -> 0 * x = 0.
Proof. intros Hx. sf_eq. rewrite Hx. reflexivity. Qed.

Lemma positive_not_nan x m e : Prim2SF x = S754_finite false m e -> is_nan x = false.
Proof. intros Hx. destruct (is_nan x) eqn:E; [apply is_nan_spec in E; congruence | reflexivity]. Qed.

(** ** The LogNormal boundary [x = 0] *)

(** C10 (amended): for a valid LogNormal with finite [sigma > 0], at
    [x = 0] [pdf] and [ln_pdf] are NaN ([0/0] and [-inf - (-inf)]); [cdf(0)]
    is [Ok(0)] when moreover [mu <> -inf] and [sigma * SQRT_2] does not
    overflow. Assumed of the external functions: [ln 0 = -inf],
    [exp(-inf) = 0], [exp(NaN)] is NaN and [erfc(+inf) = 0]. *)
Theorem lognormal_at_zero `{M : F64Math} `{E : Erf} (mu sigma : float) :
  ln 0 = neg_infinity -> exp neg_infinity = 0 -> is_nan (exp nan) = true ->
  erfc infinity = 0 ->
  is_nan mu = false -> is_finite sigma = true -> (0 <? sigma) = true ->
  LogNormal.new mu sigma = Ok (LogNormal.mk mu sigma) /\
  is_nan (LogNormal.pdf (LogNormal.mk mu sigma) 0) = true /\
  is_nan (LogNormal.ln_pdf (LogNormal.mk mu sigma) 0) = true /\
  (mu <> neg_infinity -> is_finite (sigma * SQRT_2) = true ->
   LogNormal.cdf (LogNormal.mk mu sigma) 0 = Ok 0).
Proof.
  intros Hln Hexp Hexpn Herfc Hmu Hfin Hpos.
  destruct (finite_positive sigma Hfin Hpos) as (m & e & Hs).
  assert (Hsn : is_nan sigma = false) by (eapply positive_not_nan; eauto).
  unfold LogNormal.new, LogNormal.pdf, LogNormal.ln_pdf, LogNormal.cdf; simpl.
  replace (0 <? 0) with false by (vm_compute; reflexivity).
  rewrite Hln, (zero_mul_positive sigma m e Hs), Hln.
  rewrite Hmu, Hsn, leb_zero_nonpositive, Hs by assumption. simpl.
  split; [reflexivity|].
  destruct (Leibniz.eqb mu neg_infinity) eqn:Hmi.
  - (* mu = -inf: the numerator of [d] is [-inf - (-inf)] *)
    apply Leibniz.eqb_spec in Hmi. subst mu.
    replace (neg_infinity - neg_infinity) with nan by (vm_compute; reflexivity).
    assert (Hd : nan / sigma = nan) by (apply nan_eq; auto with nanprop).
    rewrite Hd.
    replace (-0.5 * nan * nan) with nan by (vm_compute; reflexivity).
    split; [|split].
    + auto with nanprop.
    + vm_compute. reflexivity.
    + intros C; contradiction.
  - assert (Hne : mu <> neg_infinity)
      by (intros C; apply Leibniz.eqb_spec in C; congruence).
    rewrite (neg_infinity_sub mu Hmu Hne), (neg_infinity_div_positive sigma m e Hs).
    replace (-0.5 * neg_infinity * neg_infinity) with neg_infinity
      by (vm_compute; reflexivity).
    rewrite Hexp.
    split; [|split].
    + vm_compute. reflexivity.
    + vm_compute. reflexivity.
    + intros _ Hf2. rewrite (sub_neg_infinity mu Hmu Hne).
      rewrite infinity_div_positive.
      * rewrite Herfc. vm_compute. reflexivity.
      * eapply mul_positive_sign; [eassumption|vm_compute; reflexivity].
      * rewrite <- is_finite_spec. assumption.
Qed.

(** ** Normal with [sigma = +inf] *)

Lemma finite_div_infinity y :
  sf_finite (Prim2SF y) = true -> y / infinity = 0 \/ y / infinity = -0.
Proof.
  intros Hy.
  assert (Prim2SF (y / infinity) = S754_zero false \/ Prim2SF (y / infinity) = S754_zero true)
    as [H|H].
  { rewrite div_spec, Prim2SF_infinity. unfold SF64div.
    destruct (Prim2SF y) as [[|]|s| |[|] m e]; simpl in Hy; try discriminate; simpl; auto. }
  - left. apply Prim2SF_inj. rewrite H. reflexivity.
  - right. apply Prim2SF_inj. rewrite H. reflexivity.
Qed.

Lemma finite_not_nan x : is_finite x = true -> is_nan x = false.
Proof. unfold is_finite. destruct (is_nan x); [discriminate|reflexivity]. Qed.

Lemma infinite_div_infinity_nan y :
  is_finite y = false -> is_nan (y / infinity) = true.
Proof.
  rewrite is_finite_spec. intros Hy. apply is_nan_spec.
  rewrite div_spec, Prim2SF_infinity.
  destruct (Prim2SF y) as [[|]|[|]| |[|] m e]; simpl in Hy; try discriminate; reflexivity.
Qed.

(** C9 (amended): a Normal with [sigma = +inf] and non-NaN [mu] (finite or
    infinite) is built; [mean()] is [mu], [variance()] and [entropy()] are
    [+inf]. [pdf(x)] is [0] for every [x] such that [x - mu] is finite
    (neither [x], [mu] infinite nor [x - mu] overflowing); when [x - mu] is
    not finite, [d = (x - mu) / inf] is NaN and so is [pdf(x)]. Assumed:
    [ln(+inf) = +inf], [exp(-0) = 1], and, for the NaN case, [exp(NaN)] NaN. *)
Theorem normal_infinite_sigma `{M : F64Math} (mu x : float) :
  ln infinity = infinity -> exp (-0) = 1 -> is_nan mu = false ->
  Normal.new mu infinity = Ok (Normal.mk mu infinity) /\
  Normal.mean (Normal.mk mu infinity) = mu /\
  Normal.variance (Normal.mk mu infinity) = infinity /\
  Normal.entropy (Normal.mk mu infinity) = infinity /\
  (is_finite (x - mu) = true -> Normal.pdf (Normal.mk mu infinity) x = 0) /\
  (is_nan (exp nan) = true -> is_finite (x - mu) = false ->
   is_nan (Normal.pdf (Normal.mk mu infinity) x) = true).
Proof.
  intros Hln Hexp Hmu.
  unfold Normal.new, Normal.mean, Normal.variance, Normal.entropy, Normal.pdf; simpl.
  rewrite Hmu, Hln. split; [reflexivity|].
  split; [reflexivity|]. split; [vm_compute; reflexivity|].
  split; [vm_compute; reflexivity|]. split.
  - intros Hfin. rewrite is_finite_spec in Hfin.
    destruct (finite_div_infinity _ Hfin) as [Hd|Hd]; rewrite Hd;
      [replace (-0.5 * 0 * 0) with (-0) by (vm_compute; reflexivity)
      |replace (-0.5 * -0 * -0) with (-0) by (vm_compute; reflexivity)];
      rewrite Hexp; vm_compute; reflexivity.
  - intros Hen Hinf. apply nan_div_l.
    rewrite (nan_eq _ (nan_mul_r (-0.5 * ((x - mu) / infinity)) _
                        (infinite_div_infinity_nan _ Hinf))).
    exact Hen.
Qed.

(** ** Moments reported by the accessors *)

(** C4 (amended): after a successful [new(mean, std_dev)], Normal's
    [mean()] and [std_dev()] are the arguments; LogNormal stores them as the
    underlying [mu], [sigma], and its [mean()] and [std_dev()] are the
    LogNormal moments [exp(mu + sigma^2/2)] and
    [sqrt((exp(sigma^2) - 1) * exp(2 mu + sigma^2))]. *)
Theorem accessors_after_new `{M : F64Math} (mean std_dev : float)
    (n : Normal.Normal) (l : LogNormal.LogNormal) :
  Normal.new mean std_dev = Ok n -> LogNormal.new mean std_dev = Ok l ->
  Normal.mean n = mean /\ Normal.std_dev n = std_dev /\
  l.(LogNormal.mu) = mean /\ l.(LogNormal.sigma) = std_dev /\
  LogNormal.mean l = exp (mean + std_dev * std_dev / 2) /\
  LogNormal.std_dev l =
    sqrt ((exp (std_dev * std_dev) - 1) * exp (mean + mean + std_dev * std_dev)).
Proof.
  unfold Normal.new, LogNormal.new.
  destruct (is_nan mean || is_nan std_dev || (std_dev <=? 0)); [discriminate|].
  intros Hn Hl. injection Hn as <-. injection Hl as <-.
  repeat split.
Qed.

(** ** Rounding to nearest is monotone *)

Section RoundingTheory.
Local Open Scope R_scope.

Definition bpow (e : Z) : R := powerRZ 2 e.

Arguments bpow : simpl never.

Lemma bpow_pos e : 0 < bpow e.
Proof. apply powerRZ_lt. lra. Qed.

Lemma bpow_add e1 e2 : bpow (e1 + e2) = bpow e1 * bpow e2.
Proof. unfold bpow. apply powerRZ_add. lra. Qed.

Lemma bpow_opp e : bpow (- e) = / bpow e.
Proof. unfold bpow. apply powerRZ_neg'. Qed.

Lemma bpow_1 : bpow 1 = 2.
Proof. unfold bpow. simpl. lra. Qed.

Lemma bpow_0 : bpow 0 = 1.
Proof. reflexivity. Qed.

Lemma IZR_pow2 n : (0 <= n)%Z -> IZR (2 ^ n) = bpow n.
Proof.
  intros Hn. destruct n as [|q|q]; [reflexivity| |lia].
  unfold bpow. simpl powerRZ. rewrite pow_IZR, positive_nat_Z. reflexivity.
Qed.

Lemma bpow_ge_1 n : (0 <= n)%Z -> 1 <= bpow n.
Proof.
  intros Hn. rewrite <- IZR_pow2 by assumption. apply IZR_le.
  assert (0 < 2 ^ n)%Z by (apply Z.pow_pos_nonneg; lia). lia.
Qed.

Lemma bpow_ge_2 n : (1 <= n)%Z -> 2 <= bpow n.
Proof.
  intros Hn. replace n with (1 + (n - 1))%Z by lia.
  rewrite bpow_add, bpow_1. assert (1 <= bpow (n - 1)) by (apply bpow_ge_1; lia). lra.
Qed.

Lemma bpow_le e1 e2 : (e1 <= e2)%Z -> bpow e1 <= bpow e2.
Proof.
  intros H. replace e2 with (e1 + (e2 - e1))%Z by lia. rewrite bpow_add.
  assert (G : 1 <= bpow (e2 - e1)) by (apply bpow_ge_1; lia). pose proof (bpow_pos e1). nra.
Qed.

Lemma bpow_lt e1 e2 : (e1 < e2)%Z -> bpow e1 < bpow e2.
Proof.
  intros H. replace e2 with (e1 + (e2 - e1))%Z by lia. rewrite bpow_add.
  assert (G : 2 <= bpow (e2 - e1)) by (apply bpow_ge_2; lia). pose proof (bpow_pos e1). nra.
Qed.

Lemma bpow_lt_inv e1 e2 : bpow e1 < bpow e2 -> (e1 < e2)%Z.
Proof.
  intros H. destruct (Z_lt_le_dec e1 e2) as [|L]; [assumption|].
  apply bpow_le in L. lra.
Qed.

Lemma bpow_le_inv e1 e2 : bpow e1 <= bpow e2 -> (e1 <= e2)%Z.
Proof.
  intros H. destruct (Z_le_gt_dec e1 e2) as [|L]; [assumption|].
  assert (L' : bpow e2 < bpow e1) by (apply bpow_lt; lia). lra.
Qed.

Lemma bpow_scale x e : x * bpow (- e) * bpow e = x.
Proof.
  rewrite bpow_opp. pose proof (bpow_pos e). field. lra.
Qed.

Lemma bpow_scale' x e : x * bpow e * bpow (- e) = x.
Proof.
  rewrite bpow_opp. pose proof (bpow_pos e). field. lra.
Qed.

(** Number of binary digits of a positive mantissa. *)
Lemma digits2_pos_size q : digits2_pos q = Pos.size q.
Proof. induction q; simpl; congruence. Qed.

Lemma Zdigits2_log2 q : Zdigits2 (Zpos q) = (Z.log2 (Zpos q) + 1)%Z.
Proof.
  simpl. rewrite digits2_pos_size.
  destruct q; simpl; try rewrite Pos2Z.inj_succ; lia.
Qed.

Lemma Zdigits2_bounds q :
  (2 ^ (Zdigits2 (Zpos q) - 1) <= Zpos q < 2 ^ Zdigits2 (Zpos q))%Z.
Proof.
  rewrite Zdigits2_log2. replace (Z.log2 (Zpos q) + 1 - 1)%Z with (Z.log2 (Zpos q)) by lia.
  apply Z.log2_spec. lia.
Qed.

Lemma Zdigits2_pos q : (1 <= Zdigits2 (Zpos q))%Z.
Proof. rewrite Zdigits2_log2. pose proof (Z.log2_nonneg (Zpos q)). lia. Qed.

Lemma Zdigits2_R q :
  bpow (Zdigits2 (Zpos q) - 1) <= IZR (Zpos q) < bpow (Zdigits2 (Zpos q)).
Proof.
  pose proof (Zdigits2_bounds q) as [B1 B2]. pose proof (Zdigits2_pos q).
  rewrite <- !IZR_pow2 by lia. split; [apply IZR_le | apply IZR_lt]; lia.
Qed.

Lemma Zdigits2_unique q d : (2 ^ (d - 1) <= Zpos q < 2 ^ d)%Z -> Zdigits2 (Zpos q) = d.
Proof.
  intros [B1 B2]. pose proof (Zdigits2_bounds q) as [C1 C2]. pose proof (Zdigits2_pos q).
  assert (1 <= d)%Z.
  { destruct (Z_le_gt_dec 1 d); [assumption|].
    destruct (Z_lt_le_dec d 0).
    - rewrite (Z.pow_neg_r 2 d) in B2 by lia. lia.
    - assert (d = 0%Z) by lia. subst d. simpl in B2. lia. }
  destruct (Z.lt_trichotomy (Zdigits2 (Zpos q)) d) as [L|[E|L]]; [|assumption|].
  - assert (2 ^ Zdigits2 (Zpos q) <= 2 ^ (d - 1))%Z by (apply Z.pow_le_mono_r; lia). lia.
  - assert (2 ^ d <= 2 ^ (Zdigits2 (Zpos q) - 1))%Z by (apply Z.pow_le_mono_r; lia). lia.
Qed.

(** Floor and rounding to nearest, ties to even. *)
Definition Zfloor (x : R) : Z := Int_part x.

Lemma Zfloor_spec x : IZR (Zfloor x) <= x < IZR (Zfloor x) + 1.
Proof. unfold Zfloor. pose proof (base_Int_part x). lra. Qed.

Lemma Zfloor_unique x n : IZR n <= x < IZR n + 1 -> Zfloor x = n.
Proof. intros H. symmetry. apply Int_part_spec. lra. Qed.

Lemma Zfloor_mono x y : x <= y -> (Zfloor x <= Zfloor y)%Z.
Proof.
  intros H. pose proof (Zfloor_spec x). pose proof (Zfloor_spec y).
  assert (IZR (Zfloor x) < IZR (Zfloor y) + 1) by lra.
  rewrite <- plus_IZR in H2. apply lt_IZR in H2. lia.
Qed.

Definition ZNE (x : R) : Z :=
  let f := Zfloor x in
  if Rlt_dec (x - IZR f) (/ 2) then f
  else if Rlt_dec (/ 2) (x - IZR f) then (f + 1)%Z
  else if Z.even f then f else (f + 1)%Z.

Lemma ZNE_bounds x : (Zfloor x <= ZNE x <= Zfloor x + 1)%Z.
Proof.
  unfold ZNE. destruct (Rlt_dec _ _); [lia|]. destruct (Rlt_dec _ _); [lia|].
  destruct (Z.even _); lia.
Qed.

Lemma ZNE_IZR n : ZNE (IZR n) = n.
Proof.
  unfold ZNE. rewrite (Zfloor_unique (IZR n) n) by lra.
  destruct (Rlt_dec _ _); [reflexivity|]. lra.
Qed.

Lemma ZNE_mono x y : x <= y -> (ZNE x <= ZNE y)%Z.
Proof.
  intros H. pose proof (Zfloor_mono x y H) as F.
  pose proof (ZNE_bounds x). pose proof (ZNE_bounds y).
  destruct (Z.eq_dec (Zfloor x) (Zfloor y)) as [E|N]; [|lia].
  unfold ZNE. rewrite E.
  set (f := Zfloor y).
  destruct (Rlt_dec (x - IZR f) (/2)); destruct (Rlt_dec (y - IZR f) (/2));
    try destruct (Rlt_dec (/2) (x - IZR f)); try destruct (Rlt_dec (/2) (y - IZR f));
    try destruct (Z.even f); lia || lra.
Qed.

Lemma ZNE_le_int x n : x <= IZR n -> (ZNE x <= n)%Z.
Proof. intros H. rewrite <- (ZNE_IZR n). apply ZNE_mono. assumption. Qed.

Lemma ZNE_ge_int x n : IZR n <= x -> (n <= ZNE x)%Z.
Proof. intros H. rewrite <- (ZNE_IZR n). apply ZNE_mono. assumption. Qed.

Lemma ZNE_small x : 0 <= x < / 2 -> ZNE x = 0%Z.
Proof.
  intros H. unfold ZNE. rewrite (Zfloor_unique x 0) by (simpl; lra).
  destruct (Rlt_dec _ _); [reflexivity|]. simpl in n. lra.
Qed.


(** The value a shift record stands for, relative to the integer grid. *)
Definition shr_val (rec : shr_record) : R :=
  IZR (shr_m rec) + (if shr_r rec then / 2 else 0).

Definition shr_inv (x : R) (rec : shr_record) : Prop :=
  (0 <= shr_m rec)%Z /\
  if shr_s rec then shr_val rec < x < shr_val rec + / 2 else x = shr_val rec.

Lemma shr_inv_bounds x rec : shr_inv x rec -> IZR (shr_m rec) <= x < IZR (shr_m rec) + 1.
Proof.
  unfold shr_inv, shr_val. intros [_ H].
  destruct (shr_r rec), (shr_s rec); lra.
Qed.

Lemma shr_1_inv x rec : shr_inv x rec -> shr_inv (x / 2) (shr_1 rec).
Proof.
  destruct rec as [m r s]. unfold shr_inv, shr_val. cbn [shr_m shr_r shr_s]. intros [Hm H].
  assert (Hv : exists q (b : bool), (m = 2 * q + (if b then 1 else 0) /\ 0 <= q)%Z /\
      shr_1 {| shr_m := m; shr_r := r; shr_s := s |} =
      {| shr_m := q; shr_r := b; shr_s := r || s |}).
  { destruct m as [|q|q]; [exists 0%Z, false; split; [lia|reflexivity]| |lia].
    destruct q as [q|q|].
    - exists (Zpos q), true. split; [lia|reflexivity].
    - exists (Zpos q), false. split; [lia|reflexivity].
    - exists 0%Z, true. split; [lia|reflexivity]. }
  destruct Hv as (q & b & [Em Hq] & E). rewrite E. cbn [shr_m shr_r shr_s].
  split; [exact Hq|].
  assert (IZR m = 2 * IZR q + (if b then 1 else 0)) as Er.
  { rewrite Em, plus_IZR, mult_IZR. destruct b; reflexivity. }
  clear E Em. destruct r, s, b; cbn [orb] in *; lra.
Qed.

Lemma iter_shr_1_inv n : forall x rec, shr_inv x rec ->
  shr_inv (x * bpow (- Zpos n)) (iter_pos shr_1 n rec).
Proof.
  induction n as [n IH|n IH|]; intros x rec H; cbn [iter_pos].
  - apply shr_1_inv in H. apply IH in H. apply IH in H.
    replace (x * bpow (- Zpos n~1)) with (x / 2 * bpow (- Zpos n) * bpow (- Zpos n)); [exact H|].
    rewrite Pos2Z.inj_xI, !bpow_opp.
    replace (2 * Zpos n + 1)%Z with (Zpos n + Zpos n + 1)%Z by lia.
    rewrite !bpow_add, bpow_1. pose proof (bpow_pos (Zpos n)). field. lra.
  - apply IH in H. apply IH in H.
    replace (x * bpow (- Zpos n~0)) with (x * bpow (- Zpos n) * bpow (- Zpos n)); [exact H|].
    rewrite Pos2Z.inj_xO, !bpow_opp.
    replace (2 * Zpos n)%Z with (Zpos n + Zpos n)%Z by lia.
    rewrite !bpow_add. pose proof (bpow_pos (Zpos n)). field. lra.
  - apply shr_1_inv in H. replace (x * bpow (- Zpos 1)) with (x / 2); [exact H|].
    rewrite bpow_opp, bpow_1. field.
Qed.

Lemma shr_inv_shr x rec e n :
  shr_inv (x * bpow (- e)) rec -> (0 <= n)%Z ->
  shr_inv (x * bpow (- (e + n))) (fst (shr rec e n)) /\ snd (shr rec e n) = (e + n)%Z.
Proof.
  intros H Hn. destruct n as [|q|q]; cbn [shr fst snd]; [|split; [|reflexivity]|lia].
  - rewrite Z.add_0_r. split; [exact H | lia].
  - apply (iter_shr_1_inv q) in H.
    replace (x * bpow (- (e + Zpos q))) with (x * bpow (- e) * bpow (- Zpos q)); [exact H|].
    replace (- (e + Zpos q))%Z with (- e + - Zpos q)%Z by lia. rewrite bpow_add. ring.
Qed.

Lemma shr_record_of_loc_m m l : shr_m (shr_record_of_loc m l) = m.
Proof. destruct l as [|[]]; reflexivity. Qed.

Lemma round_nearest_even_ZNE x rec :
  shr_inv x rec -> round_nearest_even (shr_m rec) (loc_of_shr_record rec) = ZNE x.
Proof.
  intros H. pose proof (shr_inv_bounds x rec H) as B.
  destruct H as [_ H]. destruct rec as [m r s]. unfold shr_val in H. simpl in *.
  unfold ZNE. rewrite (Zfloor_unique x m B).
  destruct r, s; simpl.
  - destruct (Rlt_dec _ _); [lra|]. destruct (Rlt_dec _ _); [reflexivity|lra].
  - destruct (Rlt_dec _ _); [lra|]. destruct (Rlt_dec _ _); [lra|]. reflexivity.
  - destruct (Rlt_dec _ _); [reflexivity|lra].
  - destruct (Rlt_dec _ _); [reflexivity|lra].
Qed.

Lemma shr_inv_zero rec : shr_inv 0 rec -> shr_m rec = 0%Z.
Proof.
  intros H. pose proof (shr_inv_bounds 0 rec H) as [B1 B2]. destruct H as [Hm _].
  assert (IZR (shr_m rec) <= IZR 0) by (simpl; lra). apply le_IZR in H. lia.
Qed.


Lemma ZNE_le_half x : 0 <= x <= / 2 -> ZNE x = 0%Z.
Proof.
  intros H. destruct (Rlt_dec x (/2)) as [L|L]; [apply ZNE_small; lra|].
  assert (x = / 2) as -> by lra.
  unfold ZNE. rewrite (Zfloor_unique (/2) 0) by (simpl; lra).
  destruct (Rlt_dec _ _) as [L'|L']; [reflexivity|]. simpl in L'.
  destruct (Rlt_dec _ _) as [L''|L'']; [simpl in L''; lra|reflexivity].
Qed.

(** The binary64 exponent function and magnitudes. *)
Lemma fexp_eq e : fexp prec emax e = Z.max (e - 53) (-1074).
Proof. reflexivity. Qed.

Lemma prec_eq : prec = 53%Z.
Proof. reflexivity. Qed.

Lemma emax_eq : emax = 1024%Z.
Proof. reflexivity. Qed.

Lemma fexp_mono e1 e2 : (e1 <= e2)%Z -> (fexp prec emax e1 <= fexp prec emax e2)%Z.
Proof. rewrite !fexp_eq. lia. Qed.

Lemma bpow_exp e : bpow e = Rtrigo_def.exp (IZR e * Rpower.ln 2).
Proof. unfold bpow. rewrite powerRZ_Rpower by lra. reflexivity. Qed.

Lemma mag_exists v : 0 < v -> exists k, bpow (k - 1) <= v < bpow k.
Proof.
  intros Hv. assert (Hl : 0 < Rpower.ln 2) by (pose proof ln_lt_2; lra).
  set (L := Rpower.ln v / Rpower.ln 2). exists (Zfloor L + 1)%Z.
  pose proof (Zfloor_spec L) as [F1 F2].
  rewrite !bpow_exp. replace (Zfloor L + 1 - 1)%Z with (Zfloor L) by lia.
  rewrite <- (exp_ln v) by assumption. rewrite plus_IZR.
  assert (Rpower.ln v = L * Rpower.ln 2) as EL by (unfold L; field; lra).
  split.
  - destruct (Rle_lt_or_eq_dec _ _ F1) as [F|F].
    + left. apply exp_increasing. rewrite EL. apply Rmult_lt_compat_r; assumption.
    + right. rewrite EL, F. reflexivity.
  - apply exp_increasing. rewrite EL. apply Rmult_lt_compat_r; assumption.
Qed.

Lemma mag_unique v k1 k2 :
  bpow (k1 - 1) <= v < bpow k1 -> bpow (k2 - 1) <= v < bpow k2 -> k1 = k2.
Proof.
  intros [A1 A2] [B1 B2].
  assert (k1 - 1 < k2)%Z by (apply bpow_lt_inv; lra).
  assert (k2 - 1 < k1)%Z by (apply bpow_lt_inv; lra). lia.
Qed.

(** Rounding a nonnegative real to the grid of step [bpow E]. *)
Definition round_at (E : Z) (v : R) : R := IZR (ZNE (v * bpow (- E))) * bpow E.

Lemma round_at_mono E v1 v2 : v1 <= v2 -> round_at E v1 <= round_at E v2.
Proof.
  intros H. unfold round_at. apply Rmult_le_compat_r; [left; apply bpow_pos|].
  apply IZR_le, ZNE_mono. apply Rmult_le_compat_r; [left; apply bpow_pos|assumption].
Qed.

Lemma round_at_nonneg E v : 0 <= v -> 0 <= round_at E v.
Proof.
  intros H. rewrite <- (Rmult_0_l (bpow E)). change (0 * bpow E) with (IZR 0 * bpow E).
  unfold round_at. apply Rmult_le_compat_r; [left; apply bpow_pos|].
  apply IZR_le, ZNE_ge_int. simpl. pose proof (bpow_pos (- E)). nra.
Qed.

Lemma round_at_le E v k : 0 <= v -> v <= bpow k -> round_at E v <= bpow k.
Proof.
  intros H0 H. unfold round_at. destruct (Z_le_gt_dec E k) as [L|L].
  - rewrite <- (bpow_scale (bpow k) E). apply Rmult_le_compat_r; [left; apply bpow_pos|].
    rewrite <- bpow_add, <- (IZR_pow2 (k + - E)) by lia. apply IZR_le, ZNE_le_int.
    rewrite IZR_pow2 by lia. rewrite bpow_add.
    apply Rmult_le_compat_r; [left; apply bpow_pos|assumption].
  - rewrite ZNE_le_half; [simpl; rewrite Rmult_0_l; left; apply bpow_pos|].
    split; [pose proof (bpow_pos (- E)); nra|].
    apply Rle_trans with (bpow k * bpow (- E)).
    + apply Rmult_le_compat_r; [left; apply bpow_pos|assumption].
    + rewrite <- bpow_add. replace (/ 2) with (bpow (Z.opp 1)) by (rewrite bpow_opp, bpow_1; reflexivity).
      apply bpow_le. lia.
Qed.

Lemma round_at_ge E v j : (E <= j)%Z -> bpow j <= v -> bpow j <= round_at E v.
Proof.
  intros L H. unfold round_at.
  rewrite <- (bpow_scale (bpow j) E). apply Rmult_le_compat_r; [left; apply bpow_pos|].
  rewrite <- bpow_add, <- (IZR_pow2 (j + - E)) by lia. apply IZR_le, ZNE_ge_int.
  rewrite IZR_pow2 by lia. rewrite bpow_add.
  apply Rmult_le_compat_r; [left; apply bpow_pos|assumption].
Qed.

Lemma round_at_int E m : round_at E (IZR m * bpow E) = IZR m * bpow E.
Proof. unfold round_at. rewrite bpow_scale', ZNE_IZR. reflexivity. Qed.

(** Rounding to nearest even in binary64, without overflow, of a positive real. *)
Definition RNpos (v r : R) : Prop :=
  exists k, bpow (k - 1) <= v < bpow k /\ r = round_at (fexp prec emax k) v.

Lemma RNpos_nonneg v r : 0 < v -> RNpos v r -> 0 <= r.
Proof. intros H (k & _ & ->). apply round_at_nonneg. lra. Qed.

Lemma RNpos_mono v1 v2 r1 r2 : 0 < v1 -> v1 <= v2 -> RNpos v1 r1 -> RNpos v2 r2 -> r1 <= r2.
Proof.
  intros H0 H (k1 & [A1 A2] & ->) (k2 & [B1 B2] & ->).
  assert (k1 - 1 < k2)%Z by (apply bpow_lt_inv; lra).
  destruct (Z.eq_dec (fexp prec emax k1) (fexp prec emax k2)) as [E|N].
  - rewrite E. apply round_at_mono. assumption.
  - assert (k1 < k2)%Z by (destruct (Z.eq_dec k1 k2); [subst; tauto|lia]).
    assert (fexp prec emax k2 = k2 - 53)%Z by
      (pose proof (fexp_mono k1 k2); rewrite !fexp_eq in *; lia).
    apply Rle_trans with (bpow k1).
    + apply round_at_le; lra.
    + apply Rle_trans with (bpow (k2 - 1)); [apply bpow_le; lia|].
      apply round_at_ge; [lia|assumption].
Qed.

Lemma canonical_bounds q e :
  bpow (Zdigits2 (Zpos q) + e - 1) <= IZR (Zpos q) * bpow e < bpow (Zdigits2 (Zpos q) + e).
Proof.
  pose proof (Zdigits2_R q) as [B1 B2]. pose proof (bpow_pos e).
  replace (Zdigits2 (Zpos q) + e - 1)%Z with (Zdigits2 (Zpos q) - 1 + e)%Z by lia.
  rewrite !bpow_add. split; nra.
Qed.

Lemma RNpos_repr q e :
  fexp prec emax (Zdigits2 (Zpos q) + e) = e ->
  RNpos (IZR (Zpos q) * bpow e) (IZR (Zpos q) * bpow e).
Proof.
  intros C. exists (Zdigits2 (Zpos q) + e)%Z. split; [apply canonical_bounds|].
  rewrite C, round_at_int. reflexivity.
Qed.


(** What [binary_round_aux] returns for a rounded magnitude [r]. *)
Definition bra_ok (sx : bool) (r : R) (f : spec_float) : Prop :=
  (r = 0 /\ f = S754_zero sx) \/
  (0 < r < bpow emax /\ exists m e, f = S754_finite sx m e /\ IZR (Zpos m) * bpow e = r) \/
  (bpow emax <= r /\ f = S754_infinity sx).

Lemma shr_nonpos rec e n : (n <= 0)%Z -> shr rec e n = (rec, e).
Proof. intros H. destruct n; [reflexivity|lia|reflexivity]. Qed.

Lemma shr_zero_m E n :
  shr_m (fst (shr {| shr_m := 0; shr_r := false; shr_s := false |} E n)) = 0%Z.
Proof.
  destruct (Z_le_gt_dec n 0) as [L|L].
  - rewrite shr_nonpos by assumption. reflexivity.
  - assert (H : shr_inv (0 * bpow (- E)) {| shr_m := 0; shr_r := false; shr_s := false |}).
    { unfold shr_inv, shr_val. cbn [shr_m shr_r shr_s]. split; [lia|]. simpl. ring. }
    apply (shr_inv_shr 0 _ E n) in H; [|lia]. destruct H as [H _].
    rewrite Rmult_0_l in H. apply shr_inv_zero in H. exact H.
Qed.

Lemma IZR_le_bpow_int n j : (0 <= j)%Z -> IZR n <= bpow j -> (n <= 2 ^ j)%Z.
Proof. intros Hj H. rewrite <- IZR_pow2 in H by assumption. apply le_IZR. exact H. Qed.

Lemma binary_round_aux_correct sx m e l v :
  0 < v -> shr_inv (v * bpow (- e)) (shr_record_of_loc m l) ->
  (e <= fexp prec emax (Zdigits2 m + e))%Z ->
  exists r, RNpos v r /\ bra_ok sx r (binary_round_aux prec emax sx m e l).
Proof.
  intros Hv Hs He.
  destruct (mag_exists v Hv) as [k Hk].
  set (E := fexp prec emax (Zdigits2 m + e)) in *.
  assert (HkE : fexp prec emax k = E).
  { pose proof (shr_inv_bounds _ _ Hs) as [B1 B2]. destruct Hs as [Hm _].
    rewrite shr_record_of_loc_m in B1, B2, Hm.
    pose proof (bpow_pos e) as Pe.
    apply (Rmult_le_compat_r (bpow e)) in B1; [|lra]. rewrite bpow_scale in B1.
    apply (Rmult_lt_compat_r (bpow e)) in B2; [|lra]. rewrite bpow_scale in B2.
    destruct m as [|q|q]; [| |lia].
    - assert (k - 1 < e)%Z by (apply bpow_lt_inv; simpl in B2; lra).
      unfold E in *. simpl Zdigits2 in *. rewrite !fexp_eq in *. lia.
    - assert (k = Zdigits2 (Zpos q) + e)%Z as ->; [|reflexivity].
      apply (mag_unique v); [assumption|]. pose proof (canonical_bounds q e) as [C1 C2].
      split; [lra|].
      pose proof (Zdigits2_bounds q) as [D1 D2]. pose proof (Zdigits2_pos q).
      assert (IZR (Zpos q) + 1 <= bpow (Zdigits2 (Zpos q))).
      { rewrite <- IZR_pow2 by lia. rewrite <- plus_IZR. apply IZR_le. lia. }
      rewrite bpow_add. nra. }
  unfold binary_round_aux, shr_fexp. fold E.
  assert (Hn : (0 <= E - e)%Z) by lia. destruct (shr_inv_shr v _ e (E - e) Hs Hn) as [Hr1 H1e].
  destruct (shr (shr_record_of_loc m l) e (E - e)) as [rec1 e1] eqn:S1.
  cbn [fst snd] in Hr1, H1e. replace (e + (E - e))%Z with E in Hr1, H1e by lia. subst e1.
  rewrite (round_nearest_even_ZNE _ _ Hr1).
  remember (ZNE (v * bpow (- E))) as N eqn:EN.
  exists (IZR N * bpow E). split.
  { exists k. split; [assumption|]. rewrite HkE. unfold round_at. rewrite EN. reflexivity. }
  assert (Rr : round_at E v = IZR N * bpow E) by (unfold round_at; rewrite EN; reflexivity).
  pose proof (bpow_pos E) as PE.
  assert (N0 : (0 <= N)%Z) by (rewrite EN; apply ZNE_ge_int; simpl; pose proof (bpow_pos (- E)); nra).
  assert (NU : IZR N <= bpow (k - E)).
  { assert (U : round_at E v <= bpow k) by (apply round_at_le; lra). rewrite Rr in U.
    apply (Rmult_le_compat_r (bpow (- E))) in U; [|left; apply bpow_pos].
    rewrite bpow_scale' in U. rewrite <- bpow_add in U. exact U. }
  assert (HkE' : (k - 53 <= E)%Z) by (rewrite <- HkE, fexp_eq; lia).
  destruct N as [|q|q]; [| |lia].
  - (* the rounded mantissa is zero *)
    destruct (shr (shr_record_of_loc 0 loc_Exact) E (fexp prec emax (Zdigits2 0 + E) - E))
      as [rec2 e2] eqn:S2.
    pose proof (shr_zero_m E (fexp prec emax (Zdigits2 0 + E) - E)) as Z2.
    cbn [shr_record_of_loc] in S2. rewrite S2 in Z2. cbn [fst] in Z2. rewrite Z2.
    left. split; [simpl; ring|reflexivity].
  - (* a positive rounded mantissa *)
    assert (KE : (E <= k)%Z).
    { destruct (Z_le_gt_dec E k) as [|L]; [assumption|].
      assert (bpow (k - E) <= / 2).
      { replace (/ 2) with (bpow (Z.opp 1)) by (rewrite bpow_opp, bpow_1; reflexivity).
        apply bpow_le. lia. }
      assert (IZR (Zpos q) >= 1) by (apply Rle_ge, IZR_le; lia). lra. }
    assert (QU : (Zpos q <= 2 ^ (k - E))%Z) by (apply IZR_le_bpow_int; [lia|exact NU]).
    set (dN := Zdigits2 (Zpos q)).
    pose proof (Zdigits2_bounds q) as [D1 D2]. pose proof (Zdigits2_pos q). fold dN in D1, D2, H.
    assert (DN : (dN <= k - E + 1)%Z).
    { destruct (Z_le_gt_dec dN (k - E + 1)) as [|L]; [assumption|].
      assert (2 ^ (k - E + 1) <= 2 ^ (dN - 1))%Z by (apply Z.pow_le_mono_r; lia).
      assert (2 ^ (k - E + 1) = 2 * 2 ^ (k - E))%Z by (rewrite Z.pow_add_r by lia; lia).
      lia. }
    cbn [shr_record_of_loc]. fold dN.
    destruct (Z_le_gt_dec (fexp prec emax (dN + E) - E) 0) as [L|L].
    + rewrite shr_nonpos by assumption. cbn [shr_m].
      assert (D53 : (dN <= 53)%Z) by (rewrite fexp_eq in L; lia).
      assert (QB : IZR (Zpos q) < bpow 53).
      { rewrite <- IZR_pow2 by lia. apply IZR_lt.
        assert (2 ^ dN <= 2 ^ 53)%Z by (apply Z.pow_le_mono_r; lia). lia. }
      destruct (Z.leb_spec E (emax - prec)) as [F|F].
      * right; left. split.
        -- split; [apply Rmult_lt_0_compat; [apply IZR_lt; lia|exact PE]|].
           apply Rlt_le_trans with (bpow (53 + E)).
           ++ rewrite bpow_add. apply Rmult_lt_compat_r; assumption.
           ++ apply bpow_le. rewrite emax_eq, prec_eq in F. rewrite emax_eq. lia.
        -- exists q, E. split; reflexivity.
      * right; right. split; [|reflexivity].
        rewrite emax_eq, prec_eq in F.
        assert (EK : E = (k - 53)%Z) by (rewrite <- HkE, fexp_eq in *; lia).
        rewrite <- Rr. rewrite emax_eq.
        apply Rle_trans with (bpow (k - 1)); [apply bpow_le; lia|].
        apply round_at_ge; [lia|apply Hk].
    + assert (F1 : (fexp prec emax (dN + E) <= E + 1)%Z).
      { assert (fexp prec emax (dN + E) <= fexp prec emax (k + 1))%Z by (apply fexp_mono; lia).
        rewrite !fexp_eq in *. lia. }
      assert (D54 : dN = 54%Z) by (pose proof HkE as HkE2; rewrite fexp_eq in L, F1, HkE2; lia).
      assert (Q53 : Zpos q = (2 ^ 53)%Z).
      { rewrite D54 in D1. assert (k - E <= 53)%Z by lia.
        assert (2 ^ (k - E) <= 2 ^ 53)%Z by (apply Z.pow_le_mono_r; lia).
        simpl (54 - 1)%Z in D1. lia. }
      replace (fexp prec emax (dN + E) - E)%Z with 1%Z by lia.
      replace q with 9007199254740992%positive by (change (2 ^ 53)%Z with 9007199254740992%Z in Q53; injection Q53; intros ->; reflexivity).
      change (shr {| shr_m := Zpos 9007199254740992; shr_r := false; shr_s := false |} E 1)
        with ({| shr_m := Zpos 4503599627370496; shr_r := false; shr_s := false |}, (E + 1)%Z).
      cbn [shr_m].
      assert (Rq : IZR (Zpos 9007199254740992) * bpow E = bpow (53 + E)).
      { change (Zpos 9007199254740992) with (2 ^ 53)%Z. rewrite IZR_pow2 by lia.
        rewrite bpow_add. reflexivity. }
      rewrite Rq.
      destruct (Z.leb_spec (E + 1) (emax - prec)) as [F|F];
        rewrite emax_eq, prec_eq in F.
      * right; left. split.
        -- split; [apply bpow_pos|]. rewrite emax_eq. apply bpow_lt. lia.
        -- exists 4503599627370496%positive, (E + 1)%Z. split; [reflexivity|].
           change (Zpos 4503599627370496) with (2 ^ 52)%Z. rewrite IZR_pow2 by lia.
           rewrite <- bpow_add. f_equal. lia.
      * right; right. split; [|reflexivity]. rewrite emax_eq. apply bpow_le. lia.
Qed.


(** Extended reals: the order of binary64 values, infinities included. *)
Inductive xR := xNeg | xFin (r : R) | xPos.

Definition xle (a b : xR) : Prop :=
  match a, b with
  | xNeg, _ => True
  | _, xPos => True
  | xFin x, xFin y => x <= y
  | _, _ => False
  end.

Definition fval (s : bool) (m : positive) (e : Z) : R :=
  if s then - (IZR (Zpos m) * bpow e) else IZR (Zpos m) * bpow e.

Definition ext (f : spec_float) : xR :=
  match f with
  | S754_zero _ => xFin 0
  | S754_infinity s => if s then xNeg else xPos
  | S754_finite s m e => xFin (fval s m e)
  | S754_nan => xFin 0
  end.

Definition clamp (r : R) : xR :=
  if Rle_dec (bpow emax) r then xPos
  else if Rle_dec r (- bpow emax) then xNeg else xFin r.

Definition RNrel (v r : R) : Prop :=
  (0 < v /\ RNpos v r) \/ (v = 0 /\ r = 0) \/ (v < 0 /\ RNpos (- v) (- r)).

(** [f] is the binary64 result of rounding the exact value [v]. *)
Definition rounds (v : R) (f : spec_float) : Prop :=
  f <> S754_nan /\ exists r, RNrel v r /\ ext f = clamp r.

Lemma xle_refl a : xle a a.
Proof. destruct a; simpl; auto. apply Rle_refl. Qed.

Lemma xle_trans a b c : xle a b -> xle b c -> xle a c.
Proof. destruct a, b, c; simpl; auto; try tauto. apply Rle_trans. Qed.

Lemma RNrel_mono v1 v2 r1 r2 : v1 <= v2 -> RNrel v1 r1 -> RNrel v2 r2 -> r1 <= r2.
Proof.
  intros H R1 R2.
  destruct R1 as [[P1 N1]|[[P1 ->]|[P1 N1]]]; destruct R2 as [[P2 N2]|[[P2 ->]|[P2 N2]]];
    try lra.
  - exact (RNpos_mono _ _ _ _ P1 H N1 N2).
  - apply (RNpos_nonneg _ _ P2) in N2. lra.
  - apply (RNpos_nonneg _ _ P2) in N2. apply (RNpos_nonneg _ _) in N1; lra.
  - apply (RNpos_nonneg _ _) in N1; lra.
  - assert (- r2 <= - r1) by (apply (RNpos_mono (- v2) (- v1)); auto; lra). lra.
Qed.

Lemma clamp_mono r1 r2 : r1 <= r2 -> xle (clamp r1) (clamp r2).
Proof.
  intros H. unfold clamp.
  destruct (Rle_dec (bpow emax) r1); destruct (Rle_dec (bpow emax) r2); simpl; auto; try lra;
  destruct (Rle_dec r1 (- bpow emax)); destruct (Rle_dec r2 (- bpow emax)); simpl; auto; lra.
Qed.

Lemma rounds_mono v1 v2 f1 f2 :
  v1 <= v2 -> rounds v1 f1 -> rounds v2 f2 -> xle (ext f1) (ext f2).
Proof.
  intros H [_ (r1 & R1 & E1)] [_ (r2 & R2 & E2)]. rewrite E1, E2.
  apply clamp_mono. exact (RNrel_mono _ _ _ _ H R1 R2).
Qed.

Lemma clamp_fin r : - bpow emax < r < bpow emax -> clamp r = xFin r.
Proof.
  intros H. unfold clamp. destruct (Rle_dec _ _); [lra|]. destruct (Rle_dec _ _); [lra|reflexivity].
Qed.

Lemma bra_rounds sx v r f :
  0 < v -> RNpos v r -> bra_ok sx r f -> rounds (if sx then - v else v) f.
Proof.
  intros Hv HR Hb. pose proof (bpow_pos emax) as PE.
  assert (RR : RNrel (if sx then - v else v) (if sx then - r else r)).
  { destruct sx.
    - right; right. split; [lra|]. rewrite !Ropp_involutive. exact HR.
    - left. split; assumption. }
  destruct Hb as [[Er Ef]|[[B (m & e & Ef & Em)]|[B Ef]]]; subst f; (split; [discriminate|]);
    exists (if sx then - r else r); split; try exact RR.
  - subst r. rewrite Ropp_0. destruct sx; simpl; rewrite clamp_fin; try reflexivity; lra.
  - simpl. unfold fval. rewrite Em. destruct sx; rewrite clamp_fin; try reflexivity; lra.
  - unfold clamp. destruct sx; simpl.
    + destruct (Rle_dec _ _); [lra|]. destruct (Rle_dec _ _); [reflexivity|lra].
    + destruct (Rle_dec _ _); [reflexivity|lra].
Qed.

Lemma bounded_facts m e :
  bounded prec emax m e = true ->
  fexp prec emax (Zdigits2 (Zpos m) + e) = e /\ (e <= 971)%Z.
Proof.
  unfold bounded, canonical_mantissa. rewrite andb_true_iff, Z.eqb_eq, Z.leb_le.
  intros [C B]. split; [exact C|]. rewrite emax_eq, prec_eq in B. lia.
Qed.

Lemma bounded_lt m e : bounded prec emax m e = true -> IZR (Zpos m) * bpow e < bpow emax.
Proof.
  intros H. apply bounded_facts in H as [C B].
  pose proof (canonical_bounds m e) as [_ U]. apply Rlt_le_trans with (1 := U).
  apply bpow_le. rewrite emax_eq. rewrite fexp_eq in C. lia.
Qed.

Lemma rounds_repr s m e :
  bounded prec emax m e = true -> rounds (fval s m e) (S754_finite s m e).
Proof.
  intros H. pose proof (bounded_lt m e H) as U. pose proof (bounded_facts m e H) as [C _].
  assert (P : 0 < IZR (Zpos m) * bpow e) by (apply Rmult_lt_0_compat; [apply IZR_lt; lia|apply bpow_pos]).
  split; [discriminate|]. exists (fval s m e). split.
  - unfold fval. destruct s.
    + right; right. split; [lra|]. rewrite Ropp_involutive. apply RNpos_repr. exact C.
    + left. split; [exact P|]. apply RNpos_repr. exact C.
  - simpl. rewrite clamp_fin; [reflexivity|]. unfold fval. destruct s; lra.
Qed.

Lemma rounds_zero s : rounds 0 (S754_zero s).
Proof.
  split; [discriminate|]. exists 0. split; [right; left; auto|].
  simpl. rewrite clamp_fin; [reflexivity|]. pose proof (bpow_pos emax). lra.
Qed.

Lemma canon_lt m1 e1 m2 e2 :
  bounded prec emax m1 e1 = true -> bounded prec emax m2 e2 = true -> (e1 < e2)%Z ->
  IZR (Zpos m1) * bpow e1 < IZR (Zpos m2) * bpow e2.
Proof.
  intros H1 H2 L. apply bounded_facts in H1 as [C1 _]. apply bounded_facts in H2 as [C2 _].
  pose proof (canonical_bounds m1 e1) as [_ U]. pose proof (canonical_bounds m2 e2) as [D _].
  rewrite fexp_eq in C1, C2.
  apply Rlt_le_trans with (1 := U). apply Rle_trans with (2 := D). apply bpow_le. lia.
Qed.

Definition cmp_ok (c : comparison) (x y : R) : Prop :=
  match c with Lt => x < y | Eq => x = y | Gt => y < x end.

Lemma cmp_pos m1 e1 m2 e2 :
  bounded prec emax m1 e1 = true -> bounded prec emax m2 e2 = true ->
  cmp_ok (match Z.compare e1 e2 with Lt => Lt | Gt => Gt | Eq => Pos.compare_cont Eq m1 m2 end)
    (IZR (Zpos m1) * bpow e1) (IZR (Zpos m2) * bpow e2).
Proof.
  intros H1 H2. destruct (Z.compare_spec e1 e2) as [E|L|L]; simpl.
  - subst e2. pose proof (bpow_pos e1). change (Pos.compare_cont Eq m1 m2) with (Pos.compare m1 m2).
    destruct (Pos.compare_spec m1 m2) as [->|L|L]; simpl.
    + reflexivity.
    + apply Rmult_lt_compat_r; [assumption|]. apply IZR_lt. lia.
    + apply Rmult_lt_compat_r; [assumption|]. apply IZR_lt. lia.
  - apply canon_lt; assumption.
  - apply canon_lt; assumption.
Qed.

Lemma cmp_ok_le c x y : cmp_ok c x y ->
  (match c with Lt | Eq => true | Gt => false end = true <-> x <= y).
Proof. destruct c; simpl; intros H; split; intros; try lra; discriminate. Qed.

(** The comparison of binary64 values is the order of the extended reals. *)
Lemma SFleb_xle f1 f2 :
  valid_binary f1 = true -> valid_binary f2 = true ->
  f1 <> S754_nan -> f2 <> S754_nan ->
  (SFleb f1 f2 = true <-> xle (ext f1) (ext f2)).
Proof.
  intros V1 V2 N1 N2. unfold SFleb.
  destruct f1 as [s1|s1| |s1 m1 e1]; destruct f2 as [s2|s2| |s2 m2 e2];
    try congruence; simpl in V1, V2 |- *;
    try (destruct s1); try (destruct s2); simpl; unfold fval;
    try (split; intros; first [lra | discriminate | tauto | exact I]);
    try (pose proof (bpow_pos e1); assert (0 < IZR (Zpos m1)) by (apply IZR_lt; lia));
    try (pose proof (bpow_pos e2); assert (0 < IZR (Zpos m2)) by (apply IZR_lt; lia));
    try (split; intros; first [nra | discriminate | tauto | exact I]).
  all: pose proof (cmp_pos m1 e1 m2 e2 V1 V2) as C;
    destruct (Z.compare e1 e2); try destruct (Pos.compare_cont Eq m1 m2); simpl in C |- *;
    split; intros; try lra; try discriminate.
Qed.


(** Exact alignment of mantissas, and correct rounding of [binary_round]. *)
Lemma iter_xO m d : Zpos (Pos.iter xO m d) = (Zpos m * 2 ^ Zpos d)%Z.
Proof.
  induction d using Pos.peano_ind.
  - cbn. lia.
  - rewrite Pos.iter_succ, Pos2Z.inj_succ, Z.pow_succ_r by lia.
    change (Zpos (Pos.iter xO m d)~0) with (2 * Zpos (Pos.iter xO m d))%Z. rewrite IHd. ring.
Qed.

Lemma shl_align_fst mx ex ez : (ez <= ex)%Z ->
  IZR (Zpos (fst (shl_align mx ex ez))) * bpow ez = IZR (Zpos mx) * bpow ex.
Proof.
  intros H. unfold shl_align. destruct (ez - ex)%Z as [|d|d] eqn:D.
  - replace ez with ex by lia. reflexivity.
  - lia.
  - cbn [fst]. rewrite iter_xO, mult_IZR, IZR_pow2 by lia. rewrite Rmult_assoc, <- bpow_add.
    f_equal. f_equal. lia.
Qed.

Lemma Zdigits2_shift m d :
  Zdigits2 (Zpos (Pos.iter xO m d)) = (Zdigits2 (Zpos m) + Zpos d)%Z.
Proof.
  apply Zdigits2_unique. rewrite iter_xO. pose proof (Zdigits2_bounds m) as [B1 B2].
  pose proof (Zdigits2_pos m).
  replace (Zdigits2 (Zpos m) + Zpos d - 1)%Z with (Zdigits2 (Zpos m) - 1 + Zpos d)%Z by lia.
  rewrite !Z.pow_add_r by lia. assert (0 < 2 ^ Zpos d)%Z by (apply Z.pow_pos_nonneg; lia).
  split; nia.
Qed.

Lemma binary_round_correct sx mx ex :
  exists r, RNpos (IZR (Zpos mx) * bpow ex) r /\ bra_ok sx r (binary_round prec emax sx mx ex).
Proof.
  unfold binary_round. change (Zpos (digits2_pos mx)) with (Zdigits2 (Zpos mx)).
  set (F := fexp prec emax (Zdigits2 (Zpos mx) + ex)).
  assert (Pv : 0 < IZR (Zpos mx) * bpow ex) by (apply Rmult_lt_0_compat; [apply IZR_lt; lia|apply bpow_pos]).
  unfold shl_align. destruct (F - ex)%Z as [|d|d] eqn:D.
  - apply binary_round_aux_correct; [exact Pv| |].
    + unfold shr_inv, shr_val. cbn [shr_record_of_loc shr_m shr_r shr_s]. split; [lia|].
      rewrite bpow_scale'. ring.
    + fold F. lia.
  - apply binary_round_aux_correct; [exact Pv| |].
    + unfold shr_inv, shr_val. cbn [shr_record_of_loc shr_m shr_r shr_s]. split; [lia|].
      rewrite bpow_scale'. ring.
    + fold F. lia.
  - apply binary_round_aux_correct; [exact Pv| |].
    + unfold shr_inv, shr_val. cbn [shr_record_of_loc shr_m shr_r shr_s]. split; [lia|].
      rewrite iter_xO, mult_IZR, IZR_pow2 by lia. rewrite Rplus_0_r, Rmult_assoc, <- bpow_add.
      f_equal. f_equal. lia.
    + rewrite Zdigits2_shift. replace (Zdigits2 (Zpos mx) + Zpos d + F)%Z
        with (Zdigits2 (Zpos mx) + ex)%Z by lia. fold F. lia.
Qed.

Lemma normalize_rounds m e sz :
  rounds (IZR m * bpow e) (binary_normalize prec emax m e sz).
Proof.
  destruct m as [|p|p]; cbn [binary_normalize].
  - rewrite Rmult_0_l. apply rounds_zero.
  - destruct (binary_round_correct false p e) as (r & HR & HB).
    apply (bra_rounds false _ r); [|exact HR|exact HB].
    apply Rmult_lt_0_compat; [apply IZR_lt; lia|apply bpow_pos].
  - destruct (binary_round_correct true p e) as (r & HR & HB).
    replace (IZR (Zneg p) * bpow e) with (- (IZR (Zpos p) * bpow e))
      by (rewrite <- Pos2Z.opp_pos, opp_IZR; ring).
    apply (bra_rounds true _ r); [|exact HR|exact HB].
    apply Rmult_lt_0_compat; [apply IZR_lt; lia|apply bpow_pos].
Qed.

(** The real value of a finite or zero binary64 datum. *)
Definition rval (f : spec_float) : R :=
  match f with S754_finite s m e => fval s m e | _ => 0 end.

Lemma ext_fin f : sf_finite f = true -> ext f = xFin (rval f).
Proof. destruct f; simpl; congruence. Qed.

Lemma cond_Zopp_IZR s m e :
  IZR (cond_Zopp s (Zpos m)) * bpow e = fval s m e.
Proof. unfold fval. destruct s; cbn [cond_Zopp]; [rewrite opp_IZR|]; ring. Qed.

Lemma sub_rounds a b :
  valid_binary a = true -> valid_binary b = true -> sf_finite a = true -> sf_finite b = true ->
  rounds (rval a - rval b) (SFsub prec emax a b).
Proof.
  intros Va Vb Fa Fb.
  destruct a as [sa| | |sa ma ea]; try discriminate; destruct b as [sb| | |sb mb eb]; try discriminate;
    cbn [SFsub rval].
  - replace (0 - 0) with 0 by ring. destruct sa, sb; apply rounds_zero.
  - replace (0 - fval sb mb eb) with (fval (negb sb) mb eb) by (unfold fval; destruct sb; simpl; ring).
    apply rounds_repr. exact Vb.
  - replace (fval sa ma ea - 0) with (fval sa ma ea) by ring. apply rounds_repr. exact Va.
  - set (ez := Z.min ea eb).
    replace (fval sa ma ea - fval sb mb eb) with
      (IZR (cond_Zopp sa (Zpos (fst (shl_align ma ea ez))) -
            cond_Zopp sb (Zpos (fst (shl_align mb eb ez)))) * bpow ez).
    + apply normalize_rounds.
    + rewrite minus_IZR, Rmult_minus_distr_r, !cond_Zopp_IZR.
      assert (IZR (Zpos (fst (shl_align ma ea ez))) * bpow ez = IZR (Zpos ma) * bpow ea)
        by (apply shl_align_fst; lia).
      assert (IZR (Zpos (fst (shl_align mb eb ez))) * bpow ez = IZR (Zpos mb) * bpow eb)
        by (apply shl_align_fst; lia).
      unfold fval in *. destruct sa, sb; lra.
Qed.

Lemma rounds_not_nan v f : rounds v f -> f <> S754_nan.
Proof. intros [H _]. exact H. Qed.

Lemma xle_top a : xle a xPos.
Proof. destruct a; exact I. Qed.

Lemma xle_bot a : xle xNeg a.
Proof. exact I. Qed.

Lemma xle_fin f1 f2 : sf_finite f1 = true -> sf_finite f2 = true ->
  xle (ext f1) (ext f2) -> rval f1 <= rval f2.
Proof. intros F1 F2. rewrite !ext_fin by assumption. exact (fun H => H). Qed.

(** Subtraction from a fixed finite value is antitone. *)
Lemma SFsub_antitone a x1 x2 :
  valid_binary a = true -> sf_finite a = true ->
  valid_binary x1 = true -> valid_binary x2 = true ->
  x1 <> S754_nan -> x2 <> S754_nan ->
  xle (ext x1) (ext x2) -> xle (ext (SFsub prec emax a x2)) (ext (SFsub prec emax a x1)).
Proof.
  intros Va Fa V1 V2 N1 N2 H.
  destruct (sf_finite x1) eqn:F1; destruct (sf_finite x2) eqn:F2.
  - eapply rounds_mono; [|apply sub_rounds; auto|apply sub_rounds; auto].
    apply xle_fin in H; [lra|assumption|assumption].
  - destruct x2 as [s2|s2| |s2 m2 e2]; try discriminate; try congruence.
    destruct s2.
    + rewrite ext_fin in H by assumption. contradiction.
    + destruct a as [sa| | |sa ma ea]; try discriminate; cbn [SFsub negb ext]; apply xle_bot.
  - destruct x1 as [s1|s1| |s1 m1 e1]; try discriminate; try congruence.
    destruct s1.
    + destruct a as [sa| | |sa ma ea]; try discriminate; cbn [SFsub negb ext]; apply xle_top.
    + rewrite (ext_fin x2) in H by assumption. contradiction.
  - destruct x1 as [s1|s1| |s1 m1 e1]; try discriminate; try congruence;
    destruct x2 as [s2|s2| |s2 m2 e2]; try discriminate; try congruence.
    destruct a as [sa| | |sa ma ea]; try discriminate;
      destruct s1, s2; cbn [SFsub negb ext xle] in *; auto.
Qed.


(** Multiplication. *)
Lemma digits_lower q k : (0 <= k)%Z -> (2 ^ k <= Zpos q)%Z -> (k + 1 <= Zdigits2 (Zpos q))%Z.
Proof.
  intros Hk H. pose proof (Zdigits2_bounds q) as [_ B].
  destruct (Z_le_gt_dec (k + 1) (Zdigits2 (Zpos q))) as [|L]; [assumption|].
  assert (2 ^ Zdigits2 (Zpos q) <= 2 ^ k)%Z by (apply Z.pow_le_mono_r; lia). lia.
Qed.

Lemma fval_pos m e : 0 < IZR (Zpos m) * bpow e.
Proof. apply Rmult_lt_0_compat; [apply IZR_lt; lia|apply bpow_pos]. Qed.

Lemma mul_rounds sx mx ex sy my ey :
  bounded prec emax mx ex = true -> bounded prec emax my ey = true ->
  rounds (fval sx mx ex * fval sy my ey)
    (SFmul prec emax (S754_finite sx mx ex) (S754_finite sy my ey)).
Proof.
  intros Bx By. cbn [SFmul].
  apply bounded_facts in Bx as [Cx _]. apply bounded_facts in By as [Cy _].
  set (v := IZR (Zpos (mx * my)) * bpow (ex + ey)).
  assert (Pv : 0 < v) by apply fval_pos.
  assert (Hv : fval sx mx ex * fval sy my ey = if xorb sx sy then - v else v).
  { unfold fval, v. rewrite Pos2Z.inj_mul, mult_IZR, bpow_add. destruct sx, sy; simpl; ring. }
  rewrite Hv.
  destruct (binary_round_aux_correct (xorb sx sy) (Zpos (mx * my)) (ex + ey) loc_Exact v Pv)
    as (r & HR & HB).
  - unfold shr_inv, shr_val. cbn [shr_record_of_loc shr_m shr_r shr_s]. split; [lia|].
    unfold v. rewrite bpow_scale'. ring.
  - pose proof (Zdigits2_bounds mx) as [X1 _]. pose proof (Zdigits2_bounds my) as [Y1 _].
    pose proof (Zdigits2_pos mx). pose proof (Zdigits2_pos my).
    assert (2 ^ (Zdigits2 (Zpos mx) - 1 + (Zdigits2 (Zpos my) - 1)) <= Zpos (mx * my))%Z.
    { rewrite Z.pow_add_r by lia. rewrite Pos2Z.inj_mul.
      apply Z.mul_le_mono_nonneg; try assumption; apply Z.pow_nonneg; lia. }
    apply digits_lower in H1; [|lia].
    rewrite fexp_eq in *. lia.
  - exact (bra_rounds _ _ _ _ Pv HR HB).
Qed.

Lemma mul_rounds_fin sa ma ea x :
  bounded prec emax ma ea = true -> valid_binary x = true -> sf_finite x = true ->
  rounds (fval sa ma ea * rval x) (SFmul prec emax (S754_finite sa ma ea) x).
Proof.
  intros Ba Vx Fx. destruct x as [sx| | |sx mx ex]; try discriminate.
  - cbn [SFmul rval]. rewrite Rmult_0_r. apply rounds_zero.
  - apply mul_rounds; assumption.
Qed.

(** Multiplication by a fixed positive finite value is monotone. *)
Lemma SFmul_mono ma ea x1 x2 :
  bounded prec emax ma ea = true ->
  valid_binary x1 = true -> valid_binary x2 = true ->
  x1 <> S754_nan -> x2 <> S754_nan ->
  xle (ext x1) (ext x2) ->
  xle (ext (SFmul prec emax (S754_finite false ma ea) x1))
      (ext (SFmul prec emax (S754_finite false ma ea) x2)).
Proof.
  intros Ba V1 V2 N1 N2 H. pose proof (fval_pos ma ea) as Pa.
  destruct (sf_finite x1) eqn:F1; destruct (sf_finite x2) eqn:F2.
  - eapply rounds_mono; [|apply mul_rounds_fin; auto|apply mul_rounds_fin; auto].
    apply xle_fin in H; [|assumption|assumption]. unfold fval. apply Rmult_le_compat_l; lra.
  - destruct x2 as [s2|s2| |s2 m2 e2]; try discriminate; try congruence.
    destruct s2.
    + rewrite ext_fin in H by assumption. contradiction.
    + cbn [SFmul xorb ext]. apply xle_top.
  - destruct x1 as [s1|s1| |s1 m1 e1]; try discriminate; try congruence.
    destruct s1.
    + cbn [SFmul xorb ext]. apply xle_bot.
    + rewrite (ext_fin x2) in H by assumption. contradiction.
  - destruct x1 as [s1|s1| |s1 m1 e1]; try discriminate; try congruence;
    destruct x2 as [s2|s2| |s2 m2 e2]; try discriminate; try congruence.
    destruct s1, s2; cbn [SFmul xorb ext xle] in *; auto.
Qed.

Lemma pos_of_xle f r : 0 < r -> xle (xFin r) (ext f) -> f <> S754_nan ->
  (exists m e, f = S754_finite false m e) \/ f = S754_infinity false.
Proof.
  intros P H N. destruct f as [s|s| |s m e]; cbn [ext xle] in H.
  - lra.
  - destruct s; [contradiction|right; reflexivity].
  - congruence.
  - destruct s; unfold fval in H.
    + pose proof (fval_pos m e). lra.
    + left. exists m, e. reflexivity.
Qed.

(** A positive value times a value at least one is positive (or overflows). *)
Lemma SFmul_pos_ge1 ma ea mb eb :
  bounded prec emax ma ea = true -> bounded prec emax mb eb = true ->
  1 <= fval false mb eb ->
  (exists m e, SFmul prec emax (S754_finite false ma ea) (S754_finite false mb eb) =
     S754_finite false m e) \/
  SFmul prec emax (S754_finite false ma ea) (S754_finite false mb eb) = S754_infinity false.
Proof.
  intros Ba Bb G. pose proof (fval_pos ma ea) as Pa.
  pose proof (mul_rounds false ma ea false mb eb Ba Bb) as R.
  apply (pos_of_xle _ (fval false ma ea)); [exact Pa| |exact (rounds_not_nan _ _ R)].
  change (xFin (fval false ma ea)) with (ext (S754_finite false ma ea)).
  eapply rounds_mono; [|apply rounds_repr; exact Ba|exact R].
  unfold fval in *. nra.
Qed.


(** Division. *)
Lemma new_location_inv q m2 r : (0 <= q)%Z -> (0 < m2)%Z -> (0 <= r < m2)%Z ->
  shr_inv (IZR q + IZR r / IZR m2) (shr_record_of_loc q (new_location m2 r)).
Proof.
  intros Hq Hm Hr. assert (Pm : 0 < IZR m2) by (apply IZR_lt; lia).
  set (t := IZR r / IZR m2).
  assert (Et : IZR r = t * IZR m2) by (unfold t; field; lra).
  assert (T0 : 0 <= t) by (unfold t; apply Rmult_le_pos; [apply IZR_le; lia|left; apply Rinv_0_lt_compat; lra]).
  assert (T1 : t < 1) by (assert (IZR r < IZR m2) by (apply IZR_lt; lia); nra).
  unfold new_location, new_location_even, new_location_odd.
  destruct (Z.even m2) eqn:Ev; destruct (Z.eqb_spec r 0) as [E0|N0].
  - subst r. unfold shr_inv, shr_val. cbn. split; [lia|].
    assert (t = 0) by (unfold t; unfold Rdiv; rewrite Rmult_0_l; reflexivity). lra.
  - assert (Tp : 0 < t) by (assert (0 < IZR r) by (apply IZR_lt; lia); nra).
    destruct (Z.compare_spec (2 * r) m2) as [C|C|C]; unfold shr_inv, shr_val; cbn;
      (split; [lia|]); apply (f_equal IZR) in C || apply IZR_lt in C;
      rewrite ?mult_IZR in C; nra.
  - subst r. unfold shr_inv, shr_val. cbn. split; [lia|].
    assert (t = 0) by (unfold t; unfold Rdiv; rewrite Rmult_0_l; reflexivity). lra.
  - assert (Tp : 0 < t) by (assert (0 < IZR r) by (apply IZR_lt; lia); nra).
    destruct (Z.compare_spec (2 * r + 1) m2) as [C|C|C]; unfold shr_inv, shr_val; cbn;
      (split; [lia|]).
    + assert (2 * r < m2)%Z as C' by lia. apply IZR_lt in C'. rewrite mult_IZR in C'. nra.
    + assert (2 * r < m2)%Z as C' by lia. apply IZR_lt in C'. rewrite mult_IZR in C'. nra.
    + assert (2 * r <> m2)%Z.
      { intros E. rewrite <- E, Z.even_mul in Ev. discriminate. }
      assert (m2 < 2 * r)%Z as C' by lia. apply IZR_lt in C'. rewrite mult_IZR in C'. nra.
Qed.

Lemma Zdigits2_nonneg z : (0 <= Zdigits2 z)%Z.
Proof. destruct z; simpl; lia. Qed.

Lemma div_core_correct m1 e1 m2 e2 :
  let '(q, e', l) := SFdiv_core_binary prec emax (Zpos m1) e1 (Zpos m2) e2 in
  shr_inv (IZR (Zpos m1) * bpow e1 / (IZR (Zpos m2) * bpow e2) * bpow (- e'))
    (shr_record_of_loc q l) /\
  (e' <= fexp prec emax (Zdigits2 q + e'))%Z.
Proof.
  unfold SFdiv_core_binary.
  set (d1 := Zdigits2 (Zpos m1)). set (d2 := Zdigits2 (Zpos m2)).
  set (F := fexp prec emax (d1 + e1 - (d2 + e2))).
  set (e' := Z.min F (e1 - e2)). set (s := (e1 - e2 - e')%Z).
  assert (Hs : (0 <= s)%Z) by (unfold s, e'; lia).
  lazymatch goal with |- context [Z.div_eucl ?M _] =>
    replace M with (Zpos m1 * 2 ^ s)%Z by
      (destruct s as [|p|p] eqn:Es; [lia| rewrite Z.shiftl_mul_pow2 by lia; reflexivity|lia]) end.
  pose proof (Z_div_mod (Zpos m1 * 2 ^ s) (Zpos m2)) as DM.
  destruct (Z.div_eucl (Zpos m1 * 2 ^ s) (Zpos m2)) as [q r].
  destruct DM as [Dq Dr]; [lia|].
  assert (P2s : (0 < 2 ^ s)%Z) by (apply Z.pow_pos_nonneg; lia).
  assert (Hq : (0 <= q)%Z) by nia.
  split.
  - replace (IZR (Zpos m1) * bpow e1 / (IZR (Zpos m2) * bpow e2) * bpow (- e'))
      with (IZR q + IZR r / IZR (Zpos m2)).
    + apply new_location_inv; lia.
    + assert (Pm : 0 < IZR (Zpos m2)) by (apply IZR_lt; lia).
      assert (B : bpow e1 = bpow s * bpow e2 * bpow e') by (rewrite <- !bpow_add; f_equal; unfold s; lia).
      assert (M : IZR (Zpos m1) * bpow s = IZR (Zpos m2) * IZR q + IZR r).
      { rewrite <- IZR_pow2 by lia. rewrite <- mult_IZR, <- mult_IZR, <- plus_IZR. f_equal. lia. }
      rewrite B, bpow_opp. pose proof (bpow_pos e2). pose proof (bpow_pos e').
      replace (IZR (Zpos m1) * (bpow s * bpow e2 * bpow e')) with
        ((IZR (Zpos m1) * bpow s) * bpow e2 * bpow e') by ring.
      rewrite M. field. repeat split; lra.
  - pose proof (Zdigits2_bounds m1) as [X1 X2]. pose proof (Zdigits2_bounds m2) as [Y1 Y2].
    fold d1 in X1, X2. fold d2 in Y1, Y2.
    pose proof (Zdigits2_pos m1). pose proof (Zdigits2_pos m2). fold d1 d2 in H, H0.
    pose proof (Zdigits2_nonneg q).
    assert (FF : (F = Z.max (d1 + e1 - (d2 + e2) - 53) (-1074))%Z) by (unfold F; apply fexp_eq).
    destruct (Z_le_gt_dec 0 (d1 - 1 + s - d2)) as [J|J].
    + set (j := (d1 - 1 + s - d2)%Z) in J.
      assert (PJ : (0 < 2 ^ j)%Z) by (apply Z.pow_pos_nonneg; lia).
      assert (E1 : (2 ^ (d1 - 1 + s) = 2 ^ j * 2 ^ d2)%Z)
        by (rewrite <- Z.pow_add_r by lia; f_equal; unfold j; lia).
      assert (E2 : (2 ^ (d1 - 1 + s) = 2 ^ (d1 - 1) * 2 ^ s)%Z) by (apply Z.pow_add_r; lia).
      assert (G : (2 ^ j <= q)%Z).
      { assert (2 ^ (d1 - 1) * 2 ^ s <= Zpos m1 * 2 ^ s)%Z by (apply Z.mul_le_mono_nonneg_r; lia).
        assert (2 ^ j * (Zpos m2 + 1) <= 2 ^ j * 2 ^ d2)%Z by (apply Z.mul_le_mono_nonneg_l; lia).
        nia. }
      destruct q as [|qq|qq]; [lia| |lia].
      apply digits_lower in G; [|lia].
      pose proof (fexp_mono (d1 + e1 - (d2 + e2)) (Zdigits2 (Zpos qq) + e')) as FM.
      fold F in FM. unfold j in G. unfold s in G. unfold e' in *. lia.
    + rewrite fexp_eq. unfold s, e' in *. lia.
Qed.

Lemma div_rounds sx mx ex sy my ey :
  rounds (fval sx mx ex / fval sy my ey)
    (SFdiv prec emax (S754_finite sx mx ex) (S754_finite sy my ey)).
Proof.
  cbn [SFdiv]. pose proof (div_core_correct mx ex my ey) as DC.
  destruct (SFdiv_core_binary prec emax (Zpos mx) ex (Zpos my) ey) as [[q e'] l].
  destruct DC as [HS HP].
  set (v := IZR (Zpos mx) * bpow ex / (IZR (Zpos my) * bpow ey)) in HS.
  pose proof (fval_pos mx ex). pose proof (fval_pos my ey).
  assert (Pv : 0 < v) by (unfold v; apply Rdiv_lt_0_compat; assumption).
  destruct (binary_round_aux_correct (xorb sx sy) q e' l v Pv HS HP) as (r & HR & HB).
  replace (fval sx mx ex / fval sy my ey) with (if xorb sx sy then - v else v).
  - exact (bra_rounds _ _ _ _ Pv HR HB).
  - assert (0 < IZR (Zpos my)) by (apply IZR_lt; lia). pose proof (bpow_pos ey).
    unfold v, fval. destruct sx, sy; simpl; field; split; lra.
Qed.

(** Division by a fixed positive finite value is monotone. *)
Lemma SFdiv_mono mc ec x1 x2 :
  valid_binary x1 = true -> valid_binary x2 = true ->
  x1 <> S754_nan -> x2 <> S754_nan ->
  xle (ext x1) (ext x2) ->
  xle (ext (SFdiv prec emax x1 (S754_finite false mc ec)))
      (ext (SFdiv prec emax x2 (S754_finite false mc ec))).
Proof.
  intros V1 V2 N1 N2 H. pose proof (fval_pos mc ec) as Pc.
  assert (DF : forall x, sf_finite x = true ->
    rounds (rval x / fval false mc ec) (SFdiv prec emax x (S754_finite false mc ec))).
  { intros x Fx. destruct x as [sx| | |sx mx ex]; try discriminate.
    - cbn [SFdiv rval]. unfold Rdiv. rewrite Rmult_0_l. apply rounds_zero.
    - apply div_rounds. }
  destruct (sf_finite x1) eqn:F1; destruct (sf_finite x2) eqn:F2.
  - eapply rounds_mono; [|apply DF; auto|apply DF; auto].
    apply xle_fin in H; [|assumption|assumption]. unfold fval in *. unfold Rdiv.
    apply Rmult_le_compat_r; [left; apply Rinv_0_lt_compat; lra|exact H].
  - destruct x2 as [s2|s2| |s2 m2 e2]; try discriminate; try congruence.
    destruct s2.
    + rewrite ext_fin in H by assumption. contradiction.
    + cbn [SFdiv xorb ext]. apply xle_top.
  - destruct x1 as [s1|s1| |s1 m1 e1]; try discriminate; try congruence.
    destruct s1.
    + cbn [SFdiv xorb ext]. apply xle_bot.
    + rewrite (ext_fin x2) in H by assumption. contradiction.
  - destruct x1 as [s1|s1| |s1 m1 e1]; try discriminate; try congruence;
    destruct x2 as [s2|s2| |s2 m2 e2]; try discriminate; try congruence.
    destruct s1, s2; cbn [SFdiv xorb ext xle] in *; auto.
Qed.

End RoundingTheory.

(** ** Monotonicity of the operations of [cdf] *)

Section ScaleFacts.
Local Open Scope R_scope.

Lemma fval_ge_1 m e : (0 <= Z.opp e)%Z -> (2 ^ Z.opp e <= Zpos m)%Z -> 1 <= fval false m e.
Proof.
  intros He H. unfold fval. rewrite <- (Z.opp_involutive e).
  rewrite bpow_opp, <- IZR_pow2 by lia.
  assert (P : 0 < IZR (2 ^ Z.opp e)) by (apply IZR_lt; apply Z.pow_pos_nonneg; lia).
  apply IZR_le in H. apply (Rmult_le_reg_r (IZR (2 ^ Z.opp e))); [assumption|].
  rewrite Rmult_assoc, Rinv_l by lra. lra.
Qed.

End ScaleFacts.

Lemma Prim2SF_SQRT_2 : Prim2SF SQRT_2 = S754_finite false 6369051672525773 (-52).
Proof. vm_compute. reflexivity. Qed.

Lemma Prim2SF_half : Prim2SF 0.5 = S754_finite false 4503599627370496 (-53).
Proof. vm_compute. reflexivity. Qed.

Lemma leb_not_nan x y : (x <=? y) = true -> is_nan x = false /\ is_nan y = false.
Proof.
  rewrite leb_spec. intros H. split.
  - destruct (is_nan x) eqn:E; [|reflexivity]. apply is_nan_spec in E.
    rewrite E in H. discriminate.
  - destruct (is_nan y) eqn:E; [|reflexivity]. apply is_nan_spec in E.
    rewrite E in H. destruct (Prim2SF x); discriminate.
Qed.

Lemma leb_xle x y : is_nan x = false -> is_nan y = false ->
  ((x <=? y) = true <-> xle (ext (Prim2SF x)) (ext (Prim2SF y))).
Proof.
  intros Nx Ny. rewrite leb_spec.
  apply SFleb_xle; try apply Prim2SF_valid; apply not_nan_spec; assumption.
Qed.

Lemma leb_refl x : is_nan x = false -> (x <=? x) = true.
Proof. intros N. apply leb_xle; [exact N|exact N|apply xle_refl]. Qed.

Lemma leb_trans x y z : (x <=? y) = true -> (y <=? z) = true -> (x <=? z) = true.
Proof.
  intros H1 H2. destruct (leb_not_nan _ _ H1) as [Nx Ny].
  destruct (leb_not_nan _ _ H2) as [_ Nz].
  apply leb_xle; [exact Nx|exact Nz|].
  apply (xle_trans _ (ext (Prim2SF y))); apply leb_xle; assumption.
Qed.

Lemma nonneg_not_ltb x : (0 <=? x) = true -> (x <? 0) = false.
Proof.
  rewrite ltb_spec, leb_spec, Prim2SF_zero.
  destruct (Prim2SF x) as [[|]|[|]| |[|] m e]; unfold SFleb, SFltb, SFcompare; simpl; congruence.
Qed.

Lemma not_ltb_nonneg x : is_nan x = false -> (x <? 0) = false -> (0 <=? x) = true.
Proof.
  intros N%not_nan_spec. rewrite ltb_spec, leb_spec, Prim2SF_zero. revert N.
  destruct (Prim2SF x) as [[|]|[|]| |[|] m e]; unfold SFleb, SFltb, SFcompare; simpl; congruence.
Qed.

Lemma SFsub_not_nan a x :
  valid_binary a = true -> sf_finite a = true -> valid_binary x = true -> x <> S754_nan ->
  SFsub prec emax a x <> S754_nan.
Proof.
  intros Va Fa Vx Nx. destruct (sf_finite x) eqn:Fx.
  - exact (rounds_not_nan _ _ (sub_rounds a x Va Vx Fa Fx)).
  - destruct x as [s|s| |s m e]; cbn [sf_finite] in Fx; try discriminate; try congruence.
    destruct a as [sa|sa| |sa ma ea]; try discriminate; cbn [SFsub SFadd SFopp]; try discriminate.
Qed.

Lemma SFmul_not_nan ma ea x :
  bounded prec emax ma ea = true -> valid_binary x = true -> x <> S754_nan ->
  SFmul prec emax (S754_finite false ma ea) x <> S754_nan.
Proof.
  intros Ba Vx Nx. destruct (sf_finite x) eqn:Fx.
  - exact (rounds_not_nan _ _ (mul_rounds_fin false ma ea x Ba Vx Fx)).
  - destruct x as [s|s| |s m e]; cbn [sf_finite] in Fx; try discriminate; congruence.
Qed.

Lemma SFdiv_not_nan mc ec x :
  x <> S754_nan -> SFdiv prec emax x (S754_finite false mc ec) <> S754_nan.
Proof.
  intros Nx. destruct x as [s|s| |s m e]; [cbn [SFdiv]; discriminate..|congruence|].
  exact (rounds_not_nan _ _ (div_rounds s m e false mc ec)).
Qed.

Lemma prim_sub_antitone mu x1 x2 :
  is_finite mu = true -> (x1 <=? x2) = true -> (mu - x2 <=? mu - x1) = true.
Proof.
  intros Hmu H. destruct (leb_not_nan _ _ H) as [N1 N2].
  assert (Fm : sf_finite (Prim2SF mu) = true) by (rewrite <- is_finite_spec; exact Hmu).
  assert (NS : forall x, is_nan x = false -> is_nan (mu - x) = false).
  { intros x Nx. destruct (is_nan (mu - x)) eqn:E; [|reflexivity].
    apply is_nan_spec in E. rewrite sub_spec in E. exfalso. revert E.
    apply SFsub_not_nan; auto using Prim2SF_valid, not_nan_spec. }
  apply leb_xle; [apply NS; assumption..|].
  rewrite !sub_spec. unfold SF64sub.
  apply SFsub_antitone; auto using Prim2SF_valid, not_nan_spec.
  apply leb_xle; assumption.
Qed.

Lemma prim_mul_mono a ma ea y1 y2 :
  Prim2SF a = S754_finite false ma ea ->
  (y1 <=? y2) = true -> (a * y1 <=? a * y2) = true.
Proof.
  intros Ha H. destruct (leb_not_nan _ _ H) as [N1 N2].
  assert (Ba : bounded prec emax ma ea = true).
  { pose proof (Prim2SF_valid a) as V. rewrite Ha in V. exact V. }
  assert (NS : forall y, is_nan y = false -> is_nan (a * y) = false).
  { intros y Ny. destruct (is_nan (a * y)) eqn:E; [|reflexivity].
    apply is_nan_spec in E. rewrite mul_spec, Ha in E. exfalso. revert E.
    apply SFmul_not_nan; auto using Prim2SF_valid, not_nan_spec. }
  apply leb_xle; [apply NS; assumption..|].
  rewrite !mul_spec, Ha. unfold SF64mul.
  apply SFmul_mono; auto using Prim2SF_valid, not_nan_spec.
  apply leb_xle; assumption.
Qed.

Lemma prim_div_mono c mc ec y1 y2 :
  Prim2SF c = S754_finite false mc ec ->
  (y1 <=? y2) = true -> (y1 / c <=? y2 / c) = true.
Proof.
  intros Hc H. destruct (leb_not_nan _ _ H) as [N1 N2].
  assert (NS : forall y, is_nan y = false -> is_nan (y / c) = false).
  { intros y Ny. destruct (is_nan (y / c)) eqn:E; [|reflexivity].
    apply is_nan_spec in E. rewrite div_spec, Hc in E. exfalso. revert E.
    apply SFdiv_not_nan; auto using not_nan_spec. }
  apply leb_xle; [apply NS; assumption..|].
  rewrite !div_spec, Hc. unfold SF64div.
  apply SFdiv_mono; auto using Prim2SF_valid, not_nan_spec.
  apply leb_xle; assumption.
Qed.

(** A positive [sigma] with a finite [sigma * SQRT_2] is a positive finite
    float, and so is [sigma * SQRT_2]. *)
Lemma scale_positive sigma :
  (0 <? sigma) = true -> is_finite (sigma * SQRT_2) = true ->
  exists ms es mc ec, Prim2SF sigma = S754_finite false ms es /\
    Prim2SF (sigma * SQRT_2) = S754_finite false mc ec.
Proof.
  intros Hs Hc. rewrite ltb_spec, Prim2SF_zero in Hs.
  rewrite is_finite_spec, mul_spec, Prim2SF_SQRT_2 in Hc.
  rewrite mul_spec, Prim2SF_SQRT_2.
  pose proof (Prim2SF_valid sigma) as V.
  destruct (Prim2SF sigma) as [[|]|[|]| |[|] m e]; try discriminate.
  exists m, e.
  assert (BS : bounded prec emax 6369051672525773 (-52) = true) by (vm_compute; reflexivity).
  assert (G : (1 <= fval false 6369051672525773 (-52))%R) by (apply fval_ge_1; vm_compute; discriminate).
  destruct (SFmul_pos_ge1 m e _ _ V BS G) as [(mc & ec & Ec) | Ei];
    unfold SF64mul in Hc |- *.
  - exists mc, ec. split; [reflexivity|exact Ec].
  - rewrite Ei in Hc. discriminate.
Qed.

(** C8 (amended): take a finite [mu], a positive [sigma] whose scale
    [sigma * SQRT_2] is finite, and an [erfc] that is non-increasing. Then
    [Normal::new(mu, sigma)] succeeds and its [cdf] is non-decreasing: for
    [x1 <= x2] both results are [Ok] and [cdf(x1) <= cdf(x2)]. The same
    holds for [LogNormal] when moreover [erfc] is non-negative on non-NaN
    inputs and [ln] is non-decreasing on non-negative inputs. The
    subtraction, the division by the scale and the product by [0.5] are
    IEEE operations, monotone because round-to-nearest is. *)
Theorem cdf_monotone_finite_params `{M : F64Math} `{E : Erf} (mu sigma : float)
    (Hmu : is_finite mu = true) (Hs : (0 <? sigma) = true)
    (Hc : is_finite (sigma * SQRT_2) = true)
    (Herfc : forall y1 y2, (y1 <=? y2) = true -> (erfc y2 <=? erfc y1) = true) :
  (Normal.new mu sigma = Ok (Normal.mk mu sigma) /\
   forall x1 x2, (x1 <=? x2) = true ->
     exists c1 c2, Normal.cdf (Normal.mk mu sigma) x1 = Ok c1 /\
       Normal.cdf (Normal.mk mu sigma) x2 = Ok c2 /\ (c1 <=? c2) = true) /\
  ((forall y, is_nan y = false -> (0 <=? erfc y) = true) ->
   (forall a b, (0 <=? a) = true -> (a <=? b) = true -> (ln a <=? ln b) = true) ->
   LogNormal.new mu sigma = Ok (LogNormal.mk mu sigma) /\
   forall x1 x2, (x1 <=? x2) = true ->
     exists c1 c2, LogNormal.cdf (LogNormal.mk mu sigma) x1 = Ok c1 /\
       LogNormal.cdf (LogNormal.mk mu sigma) x2 = Ok c2 /\ (c1 <=? c2) = true).
Proof.
  destruct (scale_positive sigma Hs Hc) as (ms & es & mc & ec & Es & Ec).
  assert (Nmu : is_nan mu = false) by (apply finite_not_nan; exact Hmu).
  assert (Ns : is_nan sigma = false).
  { destruct (is_nan sigma) eqn:N; [|reflexivity]. apply is_nan_spec in N. congruence. }
  assert (Ls : (sigma <=? 0) = false) by (rewrite leb_spec, Es, Prim2SF_zero; reflexivity).
  assert (Chain : forall t1 t2, (t1 <=? t2) = true ->
    (0.5 * erfc ((mu - t1) / (sigma * SQRT_2)) <=?
     0.5 * erfc ((mu - t2) / (sigma * SQRT_2))) = true).
  { intros t1 t2 T. apply (prim_mul_mono _ _ _ _ _ Prim2SF_half). apply Herfc.
    apply (prim_div_mono _ _ _ _ _ Ec). apply prim_sub_antitone; assumption. }
  split.
  - split.
    + unfold Normal.new. rewrite Nmu, Ns, Ls. reflexivity.
    + intros x1 x2 H. do 2 eexists. split; [reflexivity|]. split; [reflexivity|].
      apply Chain. exact H.
  - intros Hpos Hln. split.
    + unfold LogNormal.new. rewrite Nmu, Ns, Ls. reflexivity.
    + intros x1 x2 H. destruct (leb_not_nan _ _ H) as [N1 N2].
      unfold LogNormal.cdf. cbn [LogNormal.mu LogNormal.sigma].
      destruct (x1 <? 0) eqn:L1, (x2 <? 0) eqn:L2;
        do 2 eexists; (split; [reflexivity|]); (split; [reflexivity|]).
      * reflexivity.
      * assert (P2 : (0 <=? x2) = true) by (apply not_ltb_nonneg; assumption).
        assert (T : ((mu - ln x2) / (sigma * SQRT_2) <=? (mu - ln x2) / (sigma * SQRT_2)) = true).
        { apply (prim_div_mono _ _ _ _ _ Ec). apply prim_sub_antitone; [exact Hmu|].
          apply Hln; [exact P2|apply leb_refl; exact N2]. }
        destruct (leb_not_nan _ _ T) as [Ny _].
        change 0 with (0.5 * 0).
        apply (prim_mul_mono _ _ _ _ _ Prim2SF_half). apply Hpos. exact Ny.
      * exfalso. assert (P1 : (0 <=? x1) = true) by (apply not_ltb_nonneg; assumption).
        pose proof (nonneg_not_ltb _ (leb_trans _ _ _ P1 H)) as L. congruence.
      * apply Chain. apply Hln; [apply not_ltb_nonneg; assumption|exact H].
Qed.

(** ** Further properties of the methods *)

(** Sign symmetry of rounding to nearest. *)
Lemma binary_round_aux_opp p em s m e l :
  binary_round_aux p em (negb s) m e l = SFopp (binary_round_aux p em s m e l).
Proof.
  unfold binary_round_aux.
  destruct (shr_fexp p em m e l) as [r1 e1].
  destruct (shr_fexp p em _ e1 loc_Exact) as [r2 e2].
  destruct (shr_m r2) as [|q|q]; [reflexivity| |reflexivity].
  destruct (e2 <=? em - p)%Z; reflexivity.
Qed.

Lemma SFmul_opp_l x y : SF64mul (SFopp x) y = SFopp (SF64mul x y).
Proof.
  unfold SF64mul.
  destruct x as [sx|sx| |sx mx ex], y as [sy|sy| |sy my ey]; try reflexivity;
    try (destruct sx, sy; reflexivity).
  cbn [SFopp SFmul]. rewrite <- binary_round_aux_opp. destruct sx, sy; reflexivity.
Qed.

Lemma SFmul_comm x y : SF64mul x y = SF64mul y x.
Proof.
  unfold SF64mul.
  destruct x as [sx|sx| |sx mx ex], y as [sy|sy| |sy my ey]; try reflexivity;
    try (destruct sx, sy; reflexivity).
  cbn [SFmul]. rewrite Pos.mul_comm, Z.add_comm, xorb_comm. reflexivity.
Qed.

Lemma SFdiv_opp_l x y : SF64div (SFopp x) y = SFopp (SF64div x y).
Proof.
  unfold SF64div.
  destruct x as [sx|sx| |sx mx ex], y as [sy|sy| |sy my ey]; try reflexivity;
    try (destruct sx, sy; reflexivity).
  cbn [SFopp SFdiv]. destruct (SFdiv_core_binary _ _ _ _ _ _) as [[mz ez] lz].
  rewrite <- binary_round_aux_opp. destruct sx, sy; reflexivity.
Qed.

Lemma SFopp_involutive x : SFopp (SFopp x) = x.
Proof. destruct x as [[|]|[|]| |[|] m e]; reflexivity. Qed.

Lemma mul_opp_l a b : (- a) * b = - (a * b).
Proof. sf_eq. rewrite mul_spec. apply SFmul_opp_l. Qed.

Lemma mul_comm a b : a * b = b * a.
Proof. sf_eq. apply SFmul_comm. Qed.

Lemma mul_opp_r a b : a * (- b) = - (a * b).
Proof. rewrite mul_comm, mul_opp_l, mul_comm. reflexivity. Qed.

Lemma div_opp_l a b : (- a) / b = - (a / b).
Proof. sf_eq. rewrite div_spec. apply SFdiv_opp_l. Qed.

Lemma opp_involutive a : - (- a) = a.
Proof. sf_eq. apply SFopp_involutive. Qed.

Lemma sub_self x : is_finite x = true -> x - x = 0.
Proof.
  rewrite is_finite_spec. intros F. sf_eq. unfold SF64sub.
  destruct (Prim2SF x) as [[|]|s| |[|] m e]; try discriminate; try reflexivity;
    cbn [SFsub SFopp SFadd negb]; rewrite Z.min_id; unfold shl_align; rewrite Z.sub_diag;
    cbn [cond_Zopp fst]; rewrite ?Z.pos_sub_diag; reflexivity.
Qed.

(** X1: the density of [Normal] is symmetric about [mu]: two inputs whose
    differences [x - mu] are opposite get the same [pdf] and the same
    [ln_pdf], whatever the parameters, [exp] and [ln]. *)
Theorem normal_pdf_symmetric `{M : F64Math} (n : Normal.Normal) (x1 x2 : float) :
  x2 - n.(Normal.mu) = - (x1 - n.(Normal.mu)) ->
  Normal.pdf n x2 = Normal.pdf n x1 /\ Normal.ln_pdf n x2 = Normal.ln_pdf n x1.
Proof.
  intros H. unfold Normal.pdf, Normal.ln_pdf. rewrite H, div_opp_l.
  set (d := (x1 - n.(Normal.mu)) / n.(Normal.sigma)).
  assert (E : -0.5 * - d * - d = -0.5 * d * d)
    by (rewrite !mul_opp_r, !mul_opp_l, !opp_involutive; reflexivity).
  rewrite E. split; reflexivity.
Qed.

Section MoreOrder.
Local Open Scope R_scope.

(** Subtracting a fixed finite value is monotone. *)
Lemma SFsub_mono_l b x1 x2 :
  valid_binary b = true -> sf_finite b = true ->
  valid_binary x1 = true -> valid_binary x2 = true ->
  x1 <> S754_nan -> x2 <> S754_nan ->
  xle (ext x1) (ext x2) -> xle (ext (SFsub prec emax x1 b)) (ext (SFsub prec emax x2 b)).
Proof.
  intros Vb Fb V1 V2 N1 N2 H.
  destruct (sf_finite x1) eqn:F1; destruct (sf_finite x2) eqn:F2.
  - eapply rounds_mono; [|apply sub_rounds; auto|apply sub_rounds; auto].
    apply xle_fin in H; [lra|assumption|assumption].
  - destruct x2 as [s2|s2| |s2 m2 e2]; try discriminate; try congruence.
    destruct s2.
    + rewrite ext_fin in H by assumption. contradiction.
    + destruct b as [sb| | |sb mb eb]; try discriminate; cbn [SFsub ext]; apply xle_top.
  - destruct x1 as [s1|s1| |s1 m1 e1]; try discriminate; try congruence.
    destruct s1.
    + destruct b as [sb| | |sb mb eb]; try discriminate; cbn [SFsub ext]; apply xle_bot.
    + rewrite (ext_fin x2) in H by assumption. contradiction.
  - destruct x1 as [s1|s1| |s1 m1 e1]; try discriminate; try congruence;
    destruct x2 as [s2|s2| |s2 m2 e2]; try discriminate; try congruence.
    destruct b as [sb| | |sb mb eb]; try discriminate;
      destruct s1, s2; cbn [SFsub ext xle] in *; auto.
Qed.

Lemma SFsub_not_nan_l b x :
  valid_binary b = true -> sf_finite b = true -> valid_binary x = true -> x <> S754_nan ->
  SFsub prec emax x b <> S754_nan.
Proof.
  intros Vb Fb Vx Nx. destruct (sf_finite x) eqn:Fx.
  - exact (rounds_not_nan _ _ (sub_rounds x b Vx Vb Fx Fb)).
  - destruct x as [s|s| |s m e]; cbn [sf_finite] in Fx; try discriminate; [|congruence].
    destruct b as [sb|sb| |sb mb eb]; try discriminate; cbn [SFsub]; discriminate.
Qed.

Definition xopp (a : xR) : xR :=
  match a with xNeg => xPos | xFin r => xFin (- r) | xPos => xNeg end.

Lemma ext_opp f : f <> S754_nan -> ext (SFopp f) = xopp (ext f).
Proof.
  intros N. destruct f as [s|[|]| |s m e]; cbn [SFopp ext xopp negb]; try congruence.
  - f_equal. ring.
  - f_equal. unfold fval. destruct s; cbn [negb]; ring.
Qed.

Lemma xle_opp a b : xle a b -> xle (xopp b) (xopp a).
Proof. destruct a, b; cbn [xle xopp]; auto; lra. Qed.

End MoreOrder.

Lemma SFadd_sub_opp x y : SF64add x y = SF64sub x (SFopp y).
Proof.
  unfold SF64add, SF64sub.
  destruct x as [sx|sx| |sx mx ex], y as [sy|sy| |sy my ey]; try reflexivity;
    destruct sx, sy; reflexivity.
Qed.

Lemma add_sub_opp a b : a + b = a - (- b).
Proof. sf_eq. apply SFadd_sub_opp. Qed.

Lemma leb_opp x y : (x <=? y) = true -> (- y <=? - x) = true.
Proof.
  intros H. destruct (leb_not_nan _ _ H) as [Nx Ny].
  assert (NO : forall z, is_nan z = false -> is_nan (- z) = false).
  { intros z Nz. destruct (is_nan (- z)) eqn:E; [|reflexivity].
    apply is_nan_spec in E. rewrite opp_spec in E. apply not_nan_spec in Nz.
    destruct (Prim2SF z); cbn in E; congruence. }
  apply leb_xle; [apply NO; assumption..|].
  rewrite !opp_spec, !ext_opp by (apply not_nan_spec; assumption).
  apply xle_opp. apply leb_xle; assumption.
Qed.

Lemma prim_sub_mono_l b x1 x2 :
  is_finite b = true -> (x1 <=? x2) = true -> (x1 - b <=? x2 - b) = true.
Proof.
  intros Hb H. destruct (leb_not_nan _ _ H) as [N1 N2].
  assert (Fb : sf_finite (Prim2SF b) = true) by (rewrite <- is_finite_spec; exact Hb).
  assert (NS : forall x, is_nan x = false -> is_nan (x - b) = false).
  { intros x Nx. destruct (is_nan (x - b)) eqn:E; [|reflexivity].
    apply is_nan_spec in E. rewrite sub_spec in E. exfalso. revert E.
    apply SFsub_not_nan_l; auto using Prim2SF_valid, not_nan_spec. }
  apply leb_xle; [apply NS; assumption..|].
  rewrite !sub_spec. unfold SF64sub.
  apply SFsub_mono_l; auto using Prim2SF_valid, not_nan_spec.
  apply leb_xle; assumption.
Qed.

Lemma sub_not_nan_l x b : is_nan x = false -> is_finite b = true -> is_nan (x - b) = false.
Proof.
  intros Nx Hb. rewrite is_finite_spec in Hb.
  destruct (is_nan (x - b)) eqn:E; [|reflexivity].
  apply is_nan_spec in E. rewrite sub_spec in E. exfalso. revert E.
  apply SFsub_not_nan_l; auto using Prim2SF_valid, not_nan_spec.
Qed.

Lemma sub_not_nan_r a x : is_finite a = true -> is_nan x = false -> is_nan (a - x) = false.
Proof.
  intros Ha Nx. rewrite is_finite_spec in Ha.
  destruct (is_nan (a - x)) eqn:E; [|reflexivity].
  apply is_nan_spec in E. rewrite sub_spec in E. exfalso. revert E.
  apply SFsub_not_nan; auto using Prim2SF_valid, not_nan_spec.
Qed.

Lemma div_positive_not_nan y c mc ec :
  Prim2SF c = S754_finite false mc ec -> is_nan y = false -> is_nan (y / c) = false.
Proof.
  intros Hc Ny. destruct (is_nan (y / c)) eqn:E; [|reflexivity].
  apply is_nan_spec in E. rewrite div_spec, Hc in E. exfalso. revert E.
  apply SFdiv_not_nan, not_nan_spec. exact Ny.
Qed.

Lemma zero_div_positive c mc ec : Prim2SF c = S754_finite false mc ec -> 0 / c = 0.
Proof. intros Hc. sf_eq. rewrite Hc. reflexivity. Qed.

Lemma sub_zero_r x : is_nan x = false -> x - 0 = x.
Proof.
  intros N%not_nan_spec. sf_eq.
  destruct (Prim2SF x) as [[|]|s| |s m e]; try congruence; reflexivity.
Qed.

Lemma sub_infinity x : is_finite x = true -> x - infinity = neg_infinity.
Proof.
  rewrite is_finite_spec. intros F. sf_eq.
  destruct (Prim2SF x) as [s|s| |s m e]; try discriminate; reflexivity.
Qed.

Lemma Prim2SF_neg_half : Prim2SF (-0.5) = S754_finite true 4503599627370496 (-53).
Proof. vm_compute. reflexivity. Qed.

Lemma Prim2SF_SQRT_2PI : Prim2SF consts.SQRT_2PI = S754_finite false 5644425081792262 (-51).
Proof. vm_compute. reflexivity. Qed.

Lemma sign_true_le_zero f : sf_sign_is true f -> SFleb f (S754_zero true) = true.
Proof.
  destruct f as [s|s| |s m e]; cbn [sf_sign_is]; intros H; try contradiction; subst s;
    reflexivity.
Qed.

(** [-0.5 * d * d] is at most [-0] for every non-NaN [d]. *)
Lemma neg_half_sq_nonpos d : is_nan d = false -> (-0.5 * d * d <=? -0) = true.
Proof.
  intros N%not_nan_spec. rewrite leb_spec, !mul_spec, Prim2SF_neg_half.
  replace (Prim2SF (-0)) with (S754_zero true) by (vm_compute; reflexivity).
  unfold SF64mul.
  destruct (Prim2SF d) as [s|s| |s m e]; [destruct s; reflexivity|destruct s; reflexivity|congruence|].
  cbn [SFmul].
  pose proof (binary_round_aux_sign prec emax (xorb true s) (Zpos (4503599627370496 * m))
                (-53 + e) loc_Exact ltac:(lia)) as S.
  destruct (binary_round_aux _ _ _ _ _ _) as [s'|s'| |s' m' e'];
    cbn [sf_sign_is] in S; try contradiction; subst s'; cbn [SFmul].
  - destruct s; reflexivity.
  - destruct s; reflexivity.
  - apply sign_true_le_zero. replace (xorb (xorb true s) s) with true by (destruct s; reflexivity).
    apply binary_round_aux_sign. lia.
Qed.

(** A positive [sigma] whose product with a constant [k >= 1] is finite is
    a positive finite float, and so is the product. *)
Lemma scale_positive_by k mk ek sigma :
  Prim2SF k = S754_finite false mk ek -> (1 <= fval false mk ek)%R ->
  (0 <? sigma) = true -> is_finite (sigma * k) = true ->
  exists ms es mc ec, Prim2SF sigma = S754_finite false ms es /\
    Prim2SF (sigma * k) = S754_finite false mc ec.
Proof.
  intros Hk G Hs Hc. rewrite ltb_spec, Prim2SF_zero in Hs.
  rewrite is_finite_spec, mul_spec, Hk in Hc.
  rewrite mul_spec, Hk.
  assert (BS : bounded prec emax mk ek = true).
  { pose proof (Prim2SF_valid k) as V. rewrite Hk in V. exact V. }
  pose proof (Prim2SF_valid sigma) as V.
  destruct (Prim2SF sigma) as [[|]|[|]| |[|] m e]; try discriminate.
  exists m, e.
  destruct (SFmul_pos_ge1 m e _ _ V BS G) as [(mc & ec & Ec) | Ei];
    unfold SF64mul in Hc |- *.
  - exists mc, ec. split; [reflexivity|exact Ec].
  - rewrite Ei in Hc. discriminate.
Qed.

Lemma new_ok mu sigma ms es :
  is_nan mu = false -> Prim2SF sigma = S754_finite false ms es ->
  Normal.new mu sigma = Ok (Normal.mk mu sigma) /\
  LogNormal.new mu sigma = Ok (LogNormal.mk mu sigma).
Proof.
  intros Nmu Es.
  assert (Ns : is_nan sigma = false) by (eapply positive_not_nan; exact Es).
  assert (Ls : (sigma <=? 0) = false) by (rewrite leb_spec, Es, Prim2SF_zero; reflexivity).
  unfold Normal.new, LogNormal.new. rewrite Nmu, Ns, Ls. split; reflexivity.
Qed.

(** X2: for a finite [mu], a finite [sigma > 0] whose [ln] is finite, the
    [ln_pdf] of [Normal] is largest at [x = mu]: [ln_pdf(x) <= ln_pdf(mu)]
    for every non-NaN [x]. *)
Theorem normal_ln_pdf_max_at_mean `{M : F64Math} (mu sigma x : float) :
  is_finite mu = true -> is_finite sigma = true -> (0 <? sigma) = true ->
  is_finite (ln sigma) = true -> is_nan x = false ->
  Normal.new mu sigma = Ok (Normal.mk mu sigma) /\
  (Normal.ln_pdf (Normal.mk mu sigma) x <=? Normal.ln_pdf (Normal.mk mu sigma) mu) = true.
Proof.
  intros Hmu Hsf Hs Hl Hx.
  destruct (finite_positive sigma Hsf Hs) as (ms & es & Es).
  split; [exact (proj1 (new_ok mu sigma ms es (finite_not_nan mu Hmu) Es))|].
  unfold Normal.ln_pdf; cbn [Normal.mu Normal.sigma].
  rewrite (sub_self mu Hmu), (zero_div_positive _ _ _ Es).
  replace (-0.5 * 0 * 0) with (-0) by (vm_compute; reflexivity).
  apply prim_sub_mono_l; [exact Hl|].
  apply prim_sub_mono_l; [vm_compute; reflexivity|].
  apply neg_half_sq_nonpos.
  apply (div_positive_not_nan _ _ _ _ Es). apply sub_not_nan_l; assumption.
Qed.

(** X3: for a finite [mu] and a [sigma > 0] with [SQRT_2PI * sigma] finite,
    given an [exp] that is non-decreasing and non-negative on non-NaN inputs,
    the [pdf] of [Normal] at a non-NaN [x] lies between [0] and its value at
    [mu]. *)
Theorem normal_pdf_bounded_by_mean `{M : F64Math} (mu sigma x : float) :
  is_finite mu = true -> (0 <? sigma) = true ->
  is_finite (consts.SQRT_2PI * sigma) = true ->
  (forall a b, (a <=? b) = true -> (exp a <=? exp b) = true) ->
  (forall a, is_nan a = false -> (0 <=? exp a) = true) ->
  is_nan x = false ->
  Normal.new mu sigma = Ok (Normal.mk mu sigma) /\
  (0 <=? Normal.pdf (Normal.mk mu sigma) x) = true /\
  (Normal.pdf (Normal.mk mu sigma) x <=? Normal.pdf (Normal.mk mu sigma) mu) = true.
Proof.
  intros Hmu Hs Hc Hmono Hnn Hx.
  rewrite mul_comm in Hc.
  destruct (scale_positive_by _ _ _ sigma Prim2SF_SQRT_2PI
              ltac:(apply fval_ge_1; vm_compute; discriminate) Hs Hc)
    as (ms & es & mc & ec & Es & Ec).
  rewrite mul_comm in Ec.
  split; [exact (proj1 (new_ok mu sigma ms es (finite_not_nan mu Hmu) Es))|].
  unfold Normal.pdf; cbn [Normal.mu Normal.sigma].
  rewrite (sub_self mu Hmu), (zero_div_positive _ _ _ Es).
  replace (-0.5 * 0 * 0) with (-0) by (vm_compute; reflexivity).
  set (d := (x - mu) / sigma).
  assert (Nd : is_nan d = false).
  { apply (div_positive_not_nan _ _ _ _ Es). apply sub_not_nan_l; assumption. }
  pose proof (neg_half_sq_nonpos d Nd) as Y.
  destruct (leb_not_nan _ _ Y) as [Ny _].
  split.
  - assert (Z : (0 / (consts.SQRT_2PI * sigma) <=?
                 exp (-0.5 * d * d) / (consts.SQRT_2PI * sigma)) = true).
    { apply (prim_div_mono _ _ _ _ _ Ec). apply Hnn. exact Ny. }
    rewrite (zero_div_positive _ _ _ Ec) in Z. exact Z.
  - apply (prim_div_mono _ _ _ _ _ Ec). apply Hmono. exact Y.
Qed.

Lemma half_erfc_unit `{E : Erf} y :
  (forall y, is_nan y = false -> (0 <=? erfc y) = true /\ (erfc y <=? 2) = true) ->
  is_nan y = false ->
  (0 <=? 0.5 * erfc y) = true /\ (0.5 * erfc y <=? 1) = true.
Proof.
  intros He Ny. destruct (He y Ny) as [L U]. split.
  - change 0 with (0.5 * 0). exact (prim_mul_mono _ _ _ _ _ Prim2SF_half L).
  - change 1 with (0.5 * 2). exact (prim_mul_mono _ _ _ _ _ Prim2SF_half U).
Qed.

(** X4: for a finite [mu] and a [sigma > 0] with [sigma * SQRT_2] finite,
    given an [erfc] with values in [[0, 2]] on non-NaN inputs, [cdf] at a
    non-NaN [x] is [Ok c] with [0 <= c <= 1], for [Normal], and for
    [LogNormal] when moreover [ln] is not NaN on non-negative inputs. *)
Theorem cdf_in_unit_interval `{M : F64Math} `{E : Erf} (mu sigma x : float) :
  is_finite mu = true -> (0 <? sigma) = true -> is_finite (sigma * SQRT_2) = true ->
  (forall y, is_nan y = false -> (0 <=? erfc y) = true /\ (erfc y <=? 2) = true) ->
  is_nan x = false ->
  (exists c, Normal.cdf (Normal.mk mu sigma) x = Ok c /\
     (0 <=? c) = true /\ (c <=? 1) = true) /\
  ((forall a, (0 <=? a) = true -> is_nan (ln a) = false) ->
   exists c, LogNormal.cdf (LogNormal.mk mu sigma) x = Ok c /\
     (0 <=? c) = true /\ (c <=? 1) = true).
Proof.
  intros Hmu Hs Hc He Hx.
  destruct (scale_positive sigma Hs Hc) as (ms & es & mc & ec & Es & Ec).
  assert (Arg : forall t, is_nan t = false -> is_nan ((mu - t) / (sigma * SQRT_2)) = false).
  { intros t Nt. apply (div_positive_not_nan _ _ _ _ Ec). apply sub_not_nan_r; assumption. }
  split.
  - eexists. split; [reflexivity|]. apply half_erfc_unit; [exact He|]. apply Arg. exact Hx.
  - intros Hln. unfold LogNormal.cdf; cbn [LogNormal.mu LogNormal.sigma].
    destruct (x <? 0) eqn:L.
    + eexists. split; [reflexivity|]. split; reflexivity.
    + eexists. split; [reflexivity|]. apply half_erfc_unit; [exact He|]. apply Arg.
      apply Hln. apply not_ltb_nonneg; assumption.
Qed.

(** X5: for a finite [mu] and a [sigma > 0] with [sigma * SQRT_2] finite,
    given [erfc(+inf) = 0] and [erfc(-inf) = 2], [cdf(-inf)] is [Ok(0)] and
    [cdf(+inf)] is [Ok(1)]: for [Normal], and for [LogNormal] (its
    [cdf(+inf)] when moreover [ln(+inf) = +inf]). *)
Theorem cdf_limits `{M : F64Math} `{E : Erf} (mu sigma : float) :
  is_finite mu = true -> (0 <? sigma) = true -> is_finite (sigma * SQRT_2) = true ->
  erfc infinity = 0 -> erfc neg_infinity = 2 ->
  Normal.cdf (Normal.mk mu sigma) neg_infinity = Ok 0 /\
  Normal.cdf (Normal.mk mu sigma) infinity = Ok 1 /\
  LogNormal.cdf (LogNormal.mk mu sigma) neg_infinity = Ok 0 /\
  (ln infinity = infinity -> LogNormal.cdf (LogNormal.mk mu sigma) infinity = Ok 1).
Proof.
  intros Hmu Hs Hc Hpos Hneg.
  destruct (scale_positive sigma Hs Hc) as (ms & es & mc & ec & Es & Ec).
  assert (Nmu : is_nan mu = false) by (apply finite_not_nan; exact Hmu).
  assert (Nm : mu <> neg_infinity).
  { intros ->. discriminate Hmu. }
  assert (Up : (mu - infinity) / (sigma * SQRT_2) = neg_infinity).
  { rewrite (sub_infinity mu Hmu). exact (neg_infinity_div_positive _ _ _ Ec). }
  assert (Down : (mu - neg_infinity) / (sigma * SQRT_2) = infinity).
  { rewrite (sub_neg_infinity mu Nmu Nm). apply infinity_div_positive; rewrite Ec;
      reflexivity. }
  unfold Normal.cdf, LogNormal.cdf; cbn [Normal.mu Normal.sigma LogNormal.mu LogNormal.sigma].
  rewrite Up, Down, Hpos, Hneg.
  split; [vm_compute; reflexivity|]. split; [vm_compute; reflexivity|].
  split; [vm_compute; reflexivity|].
  intros Hln. replace (infinity <? 0) with false by (vm_compute; reflexivity).
  rewrite Hln, Up, Hneg. vm_compute. reflexivity.
Qed.

(** The source state after [n] calls of [next_f64]. *)
Definition skip_draws {St} `{Rng St} (n : nat) (s : St) : St :=
  Nat.iter n (fun s => snd (next_f64 s)) s.

Lemma skip_draws_pair {St} `{Rng St} k s :
  skip_draws (2 * S k) s = skip_draws (2 * k) (snd (next_f64 (snd (next_f64 s)))).
Proof.
  unfold skip_draws. replace (2 * S k)%nat with (2 * k + 2)%nat by lia.
  rewrite Nat.iter_add. reflexivity.
Qed.

Lemma polar_loop_spec `{F64Math} {St} `{Rng St} fuel tuple s t s' :
  polar_loop fuel tuple s = Some (t, s') ->
  exists k, (k <= fuel)%nat /\ s' = skip_draws (2 * k) s /\
    (forall fuel', (fuel <= fuel')%nat -> polar_loop fuel' tuple s = Some (t, s')) /\
    ((k = 0%nat /\ exists v, tuple = (t, v, true)) \/
     exists a b v, polar_transform a b = (t, v, true)).
Proof.
  revert tuple s. induction fuel as [|f IH]; intros [[d1 v] ok] s Hl.
  - destruct ok; [|discriminate]. cbn in Hl. injection Hl as <- <-.
    exists 0%nat. repeat split; [lia| |eauto].
    intros fuel' _. destruct fuel'; reflexivity.
  - destruct ok.
    + cbn in Hl. injection Hl as <- <-.
      exists 0%nat. repeat split; [lia| |eauto].
      intros fuel' _. destruct fuel'; reflexivity.
    + cbn [polar_loop] in Hl.
      destruct (next_f64 s) as [a s1] eqn:E1, (next_f64 s1) as [b s2] eqn:E2.
      destruct (IH _ _ Hl) as (k & Hk & Hs' & Hf & Hacc).
      exists (S k). split; [lia|]. split; [|split].
      * rewrite Hs', skip_draws_pair, E1. cbn [snd]. rewrite E2. reflexivity.
      * intros [|fuel'] Le; [lia|]. cbn [polar_loop]. rewrite E1, E2. apply Hf. lia.
      * right. destruct Hacc as [[_ [w Ew]]|Acc]; [|exact Acc].
        exists a, b, w. exact Ew.
Qed.

(** The pair of values that the [j]-th round of the polar method draws from
    state [s] (rounds counted from [0]), and what [polar_transform] makes of it. *)
Definition draw_pair {St} `{Rng St} (j : nat) (s : St) : float * float :=
  let '(a, s1) := next_f64 (skip_draws (2 * j) s) in (a, fst (next_f64 s1)).

Definition pair_outcome `{F64Math} {St} `{Rng St} (j : nat) (s : St)
  : float * float * bool :=
  let '(a, b) := draw_pair j s in polar_transform a b.

Lemma pair_outcome_0 `{F64Math} {St} `{Rng St} s a s1 b s2 :
  next_f64 s = (a, s1) -> next_f64 s1 = (b, s2) -> pair_outcome 0 s = polar_transform a b.
Proof. intros E1 E2. unfold pair_outcome, draw_pair. simpl. rewrite E1, E2. reflexivity. Qed.

Lemma pair_outcome_S `{F64Math} {St} `{Rng St} j s a s1 b s2 :
  next_f64 s = (a, s1) -> next_f64 s1 = (b, s2) -> pair_outcome (S j) s = pair_outcome j s2.
Proof.
  intros E1 E2. unfold pair_outcome, draw_pair.
  rewrite skip_draws_pair, E1. cbn [snd]. rewrite E2. reflexivity.
Qed.

Lemma skip_draws_S `{F64Math} {St} `{Rng St} k s a s1 b s2 :
  next_f64 s = (a, s1) -> next_f64 s1 = (b, s2) -> skip_draws (2 * S k) s = skip_draws (2 * k) s2.
Proof. intros E1 E2. rewrite skip_draws_pair, E1. cbn [snd]. rewrite E2. reflexivity. Qed.

(** The loop stops at its first accepted pair: either the tuple it starts
    from is accepted, or it is rejected, the rounds [0 .. k-1] drawn from
    [s] are rejected and round [k] is accepted. *)
Lemma polar_loop_first_accept `{F64Math} {St} `{Rng St} fuel tuple s t s' :
  polar_loop fuel tuple s = Some (t, s') ->
  (exists v, tuple = (t, v, true) /\ s' = s) \/
  (snd tuple = false /\ exists k v, (k < fuel)%nat /\
     (forall j, (j < k)%nat -> snd (pair_outcome j s) = false) /\
     pair_outcome k s = (t, v, true) /\ s' = skip_draws (2 * S k) s).
Proof.
  revert tuple s. induction fuel as [|f IH]; intros [[d1 v] ok] s Hl.
  - destruct ok; [|discriminate]. cbn in Hl. injection Hl as <- <-. left. eauto.
  - destruct ok.
    + cbn in Hl. injection Hl as <- <-. left. eauto.
    + right. split; [reflexivity|].
      cbn [polar_loop] in Hl.
      destruct (next_f64 s) as [a s1] eqn:E1, (next_f64 s1) as [b s2] eqn:E2.
      destruct (IH _ _ Hl) as [(w & Ew & ->)|(Hrej & k & w & Hk & Hpre & Hacc & ->)].
      * exists 0%nat, w. split; [lia|]. split; [intros j Hj; lia|]. split.
        -- rewrite (pair_outcome_0 _ _ _ _ _ E1 E2). exact Ew.
        -- symmetry. exact (skip_draws_S 0 _ _ _ _ _ E1 E2).
      * exists (S k), w. split; [lia|]. split; [|split].
        -- intros [|j] Hj.
           ++ rewrite (pair_outcome_0 _ _ _ _ _ E1 E2). exact Hrej.
           ++ rewrite (pair_outcome_S _ _ _ _ _ _ E1 E2). apply Hpre. lia.
        -- rewrite (pair_outcome_S _ _ _ _ _ _ E1 E2). exact Hacc.
        -- symmetry. exact (skip_draws_S (S k) _ _ _ _ _ E1 E2).
Qed.

(** X6: when [sample_unchecked] returns [Some (x, s')], it has drawn
    [2 (k + 1)] values from [s], [k] at most the bound on rejected pairs:
    the pairs of rounds [0 .. k-1] are rejected by [polar_transform], the
    pair of round [k] is accepted with first output [t], and [x] is
    [mean + std_dev * t]. From the same state, any parameters and any larger
    bound give [mean' + std_dev' * t] and the same state [s']. *)
Theorem sample_unchecked_draws_pairs `{M : F64Math} {St} `{Rng St}
    (fuel : nat) (s : St) (mean std_dev x : float) (s' : St) :
  sample_unchecked fuel s mean std_dev = Some (x, s') ->
  exists k t v, (k <= fuel)%nat /\
    (forall j, (j < k)%nat -> snd (pair_outcome j s) = false) /\
    pair_outcome k s = (t, v, true) /\
    s' = skip_draws (2 * S k) s /\
    x = mean + std_dev * t /\
    forall fuel' mean' std_dev', (fuel <= fuel')%nat ->
      sample_unchecked fuel' s mean' std_dev' = Some (mean' + std_dev' * t, s').
Proof.
  unfold sample_unchecked.
  destruct (next_f64 s) as [a s1] eqn:E1, (next_f64 s1) as [b s2] eqn:E2.
  destruct (polar_loop fuel (polar_transform a b) s2) as [[t s3]|] eqn:Hl; [|discriminate].
  intros Hx. injection Hx as <- <-.
  destruct (polar_loop_spec _ _ _ _ _ Hl) as (_ & _ & _ & Hf & _).
  assert (Mono : forall fuel' mean' std_dev', (fuel <= fuel')%nat ->
    match polar_loop fuel' (polar_transform a b) s2 with
    | Some (t0, s'0) => Some (mean' + std_dev' * t0, s'0) | None => None end =
    Some (mean' + std_dev' * t, s3)).
  { intros fuel' mean' std_dev' Le. rewrite (Hf fuel' Le). reflexivity. }
  destruct (polar_loop_first_accept _ _ _ _ _ Hl)
    as [(w & Ew & ->)|(Hrej & k & w & Hk & Hpre & Hacc & ->)].
  - exists 0%nat, t, w. split; [lia|]. split; [intros j Hj; lia|]. split.
    + rewrite (pair_outcome_0 _ _ _ _ _ E1 E2). exact Ew.
    + split; [exact (eq_sym (skip_draws_S 0 _ _ _ _ _ E1 E2))|].
      split; [reflexivity|exact Mono].
  - exists (S k), t, w. split; [lia|]. split; [|split].
    + intros [|j] Hj.
      * rewrite (pair_outcome_0 _ _ _ _ _ E1 E2).
        exact Hrej.
      * rewrite (pair_outcome_S _ _ _ _ _ _ E1 E2). apply Hpre. lia.
    + rewrite (pair_outcome_S _ _ _ _ _ _ E1 E2). exact Hacc.
    + split; [exact (eq_sym (skip_draws_S (S k) _ _ _ _ _ E1 E2))|].
      split; [reflexivity|exact Mono].
Qed.

Lemma sq_nonneg sigma : (0 <? sigma) = true -> (0 <=? sigma * sigma) = true.
Proof.
  intros Hs. rewrite ltb_spec, Prim2SF_zero in Hs.
  destruct (Prim2SF sigma) as [[|]|[|]| |[|] m e] eqn:Es; try discriminate.
  - assert (sigma = infinity) as -> by (apply Prim2SF_inj; rewrite Es; reflexivity).
    vm_compute. reflexivity.
  - assert (Z : (sigma * 0 <=? sigma * sigma) = true).
    { apply (prim_mul_mono _ _ _ _ _ Es). rewrite leb_spec, Prim2SF_zero, Es. reflexivity. }
    rewrite mul_comm, (zero_mul_positive _ _ _ Es) in Z. exact Z.
Qed.

Lemma positive_of_guard x : is_nan x = false -> (x <=? 0) = false -> (0 <? x) = true.
Proof.
  intros N%not_nan_spec. rewrite ltb_spec, leb_spec, Prim2SF_zero. revert N.
  destruct (Prim2SF x) as [[|]|[|]| |[|] m e]; unfold SFleb, SFltb, SFcompare; simpl; congruence.
Qed.

(** X7: for a finite [mu] and [sigma > 0], given a non-decreasing [exp],
    [LogNormal]'s [mode() <= median() <= mean()], the median being
    [exp(mu)]. *)
Theorem lognormal_mode_median_mean `{M : F64Math} (mu sigma : float) :
  is_finite mu = true -> (0 <? sigma) = true ->
  (forall a b, (a <=? b) = true -> (exp a <=? exp b) = true) ->
  LogNormal.median (LogNormal.mk mu sigma) = Some (exp mu) /\
  (LogNormal.mode (LogNormal.mk mu sigma) <=? exp mu) = true /\
  (exp mu <=? LogNormal.mean (LogNormal.mk mu sigma)) = true.
Proof.
  intros Hmu Hs Hmono.
  assert (Nmu : is_nan mu = false) by (apply finite_not_nan; exact Hmu).
  pose proof (sq_nonneg sigma Hs) as P.
  assert (Q : (0 <=? sigma * sigma / 2) = true).
  { assert (Z : (0 / 2 <=? sigma * sigma / 2) = true).
    { apply (prim_div_mono _ 4503599627370496 (-51)); [vm_compute; reflexivity|exact P]. }
    exact Z. }
  unfold LogNormal.median, LogNormal.mode, LogNormal.mean; cbn [LogNormal.mu LogNormal.sigma].
  split; [reflexivity|]. split.
  - apply Hmono. rewrite <- (sub_zero_r mu Nmu) at 2.
    apply prim_sub_antitone; assumption.
  - apply Hmono. rewrite add_sub_opp. rewrite <- (sub_zero_r mu Nmu) at 1.
    apply prim_sub_antitone; [exact Hmu|].
    apply (leb_trans _ (- 0)); [exact (leb_opp _ _ Q)|reflexivity].
Qed.

(** X8: a NaN input gives NaN from [pdf], [ln_pdf] and [cdf] of both
    distributions, whatever the parameters (no guard catches it, and
    [NaN < 0] is false in [LogNormal]), given [exp], [ln] and [erfc] that
    return NaN on NaN. *)
Theorem nan_input_gives_nan `{M : F64Math} `{E : Erf}
    (n : Normal.Normal) (l : LogNormal.LogNormal) :
  is_nan (exp nan) = true -> is_nan (ln nan) = true -> is_nan (erfc nan) = true ->
  is_nan (Normal.pdf n nan) = true /\ is_nan (Normal.ln_pdf n nan) = true /\
  (exists c, Normal.cdf n nan = Ok c /\ is_nan c = true) /\
  is_nan (LogNormal.pdf l nan) = true /\ is_nan (LogNormal.ln_pdf l nan) = true /\
  (exists c, LogNormal.cdf l nan = Ok c /\ is_nan c = true).
Proof.
  intros Hexp Hln Herfc.
  assert (Nn : is_nan nan = true) by reflexivity.
  assert (Hexp' : forall y, is_nan y = true -> is_nan (exp y) = true)
    by (intros y Hy; rewrite (nan_eq y Hy); exact Hexp).
  assert (Herfc' : forall y, is_nan y = true -> is_nan (erfc y) = true)
    by (intros y Hy; rewrite (nan_eq y Hy); exact Herfc).
  unfold Normal.pdf, Normal.ln_pdf, Normal.cdf, LogNormal.pdf, LogNormal.ln_pdf, LogNormal.cdf.
  replace (nan <? 0) with false by (vm_compute; reflexivity).
  repeat split; try (eexists; split; [reflexivity|]);
    auto 10 using Hexp', Herfc' with nanprop.
Qed.

(** X9: every [Normal] built by [new] has [variance() >= 0]: never NaN
    nor negative. *)
Theorem normal_variance_nonneg (mean std_dev : float) (n : Normal.Normal) :
  Normal.new mean std_dev = Ok n -> (0 <=? Normal.variance n) = true.
Proof.
  unfold Normal.new.
  destruct (is_nan mean) eqn:Nm; [discriminate|].
  destruct (is_nan std_dev) eqn:Ns; [discriminate|].
  destruct (std_dev <=? 0) eqn:Ls; [discriminate|].
  intros H. injection H as <-. unfold Normal.variance; cbn [Normal.sigma].
  apply sq_nonneg, positive_of_guard; assumption.
Qed.

(** ** Witnesses: the hypotheses hold at concrete inputs *)

Lemma float_neq x y : Leibniz.eqb x y = false -> x <> y.
Proof. intros H E. apply Leibniz.eqb_spec in E. congruence. Qed.

Lemma polar_transform_accepts_negative_radius_witness :
  is_nan (Libm.ln_model (-0.0625)) = true /\
  exists x, @sample_unchecked Libm.f64_math _ _ 3 (0.25 :: 0.625 :: nil) 0 1 = Some (x, nil)
       /\ is_nan x = true.
Proof.
  split; [vm_compute; reflexivity|].
  apply (@polar_transform_accepts_negative_radius Libm.f64_math 0 1 3 nil).
  vm_compute. reflexivity.
Defined.

Lemma lognormal_negative_x_witness :
  let d := LogNormal.mk 0 1 in
  (-1 <? 0) = true /\
  @LogNormal.pdf Libm.f64_math d (-1) = 0 /\
  @LogNormal.cdf Libm.f64_math Libm.erf d (-1) = Ok 0 /\
  @LogNormal.ln_pdf Libm.f64_math d (-1) = neg_infinity.
Proof.
  split; [reflexivity|].
  apply (@lognormal_negative_x Libm.f64_math Libm.erf (LogNormal.mk 0 1) (-1)).
  reflexivity.
Defined.

Lemma accessors_after_new_witness :
  Normal.new 0 1 = Ok (Normal.mk 0 1) /\ LogNormal.new 0 1 = Ok (LogNormal.mk 0 1) /\
  @LogNormal.mean Libm.f64_math (LogNormal.mk 0 1) = Libm.exp_model (0 + 1 * 1 / 2).
Proof.
  split; [reflexivity|]. split; [reflexivity|].
  apply (@accessors_after_new Libm.f64_math 0 1 (Normal.mk 0 1) (LogNormal.mk 0 1));
    reflexivity.
Defined.

Lemma normal_infinite_sigma_witness :
  Libm.ln_model infinity = infinity /\ Libm.exp_model (-0) = 1 /\
  is_nan 0 = false /\
  @Normal.pdf Libm.f64_math (Normal.mk 0 infinity) 1 = 0.
Proof.
  split; [vm_compute; reflexivity|]. split; [vm_compute; reflexivity|].
  split; [reflexivity|].
  apply (proj1 (proj2 (proj2 (proj2 (proj2
    (@normal_infinite_sigma Libm.f64_math 0 1
       ltac:(vm_compute; reflexivity) ltac:(vm_compute; reflexivity) eq_refl)))))).
  vm_compute. reflexivity.
Defined.

Lemma lognormal_at_zero_witness :
  Libm.ln_model 0 = neg_infinity /\ Libm.exp_model neg_infinity = 0 /\
  is_nan (Libm.exp_model nan) = true /\ Libm.erfc_model infinity = 0 /\
  is_nan (@LogNormal.pdf Libm.f64_math (LogNormal.mk 0 1) 0) = true /\
  @LogNormal.cdf Libm.f64_math Libm.erf (LogNormal.mk 0 1) 0 = Ok 0.
Proof.
  do 4 (split; [vm_compute; reflexivity|]).
  destruct (@lognormal_at_zero Libm.f64_math Libm.erf 0 1) as (_ & Hpdf & _ & Hcdf);
    try (vm_compute; reflexivity).
  split; [exact Hpdf|].
  apply Hcdf; [apply float_neq|]; vm_compute; reflexivity.
Defined.

Lemma cdf_monotone_finite_params_witness :
  is_finite 0 = true /\ (0 <? 1) = true /\ is_finite (1 * SQRT_2) = true /\
  Normal.new 0 1 = Ok (Normal.mk 0 1) /\
  exists c1 c2, @Normal.cdf {| erfc := fun _ => 1 |} (Normal.mk 0 1) 0 = Ok c1 /\
    @Normal.cdf {| erfc := fun _ => 1 |} (Normal.mk 0 1) 1 = Ok c2 /\ (c1 <=? c2) = true.
Proof.
  split; [reflexivity|]. split; [reflexivity|]. split; [vm_compute; reflexivity|].
  destruct (@cdf_monotone_finite_params {| exp := fun _ => 1; ln := fun _ => 0 |}
              {| erfc := fun _ => 1 |} 0 1) as [[Hnew Hcdf] _];
    [vm_compute; reflexivity..|intros; reflexivity|].
  split; [exact Hnew|]. apply Hcdf. reflexivity.
Defined.

Lemma normal_pdf_symmetric_witness :
  -1 - 0 = - (1 - 0) /\
  @Normal.pdf Libm.f64_math (Normal.mk 0 1) (-1) = @Normal.pdf Libm.f64_math (Normal.mk 0 1) 1 /\
  @Normal.ln_pdf Libm.f64_math (Normal.mk 0 1) (-1) =
    @Normal.ln_pdf Libm.f64_math (Normal.mk 0 1) 1.
Proof.
  split; [vm_compute; reflexivity|].
  exact (@normal_pdf_symmetric Libm.f64_math (Normal.mk 0 1) 1 (-1)
           ltac:(vm_compute; reflexivity)).
Defined.

Lemma normal_ln_pdf_max_at_mean_witness :
  is_finite (Libm.ln_model 1) = true /\
  Normal.new 0 1 = Ok (Normal.mk 0 1) /\
  (@Normal.ln_pdf Libm.f64_math (Normal.mk 0 1) 3 <=?
   @Normal.ln_pdf Libm.f64_math (Normal.mk 0 1) 0) = true.
Proof.
  split; [vm_compute; reflexivity|].
  exact (@normal_ln_pdf_max_at_mean Libm.f64_math 0 1 3
           ltac:(vm_compute; reflexivity) ltac:(vm_compute; reflexivity)
           ltac:(vm_compute; reflexivity) ltac:(vm_compute; reflexivity)
           ltac:(vm_compute; reflexivity)).
Defined.

Lemma normal_pdf_bounded_by_mean_witness :
  is_finite (consts.SQRT_2PI * 1) = true /\
  Normal.new 0 1 = Ok (Normal.mk 0 1) /\
  (0 <=? @Normal.pdf {| exp := fun _ => 1; ln := fun _ => 0 |} (Normal.mk 0 1) 3) = true /\
  (@Normal.pdf {| exp := fun _ => 1; ln := fun _ => 0 |} (Normal.mk 0 1) 3 <=?
   @Normal.pdf {| exp := fun _ => 1; ln := fun _ => 0 |} (Normal.mk 0 1) 0) = true.
Proof.
  split; [vm_compute; reflexivity|].
  exact (@normal_pdf_bounded_by_mean {| exp := fun _ => 1; ln := fun _ => 0 |} 0 1 3
           ltac:(vm_compute; reflexivity) ltac:(vm_compute; reflexivity)
           ltac:(vm_compute; reflexivity) ltac:(intros; reflexivity)
           ltac:(intros; reflexivity) ltac:(vm_compute; reflexivity)).
Defined.

Lemma cdf_in_unit_interval_witness :
  is_finite (1 * SQRT_2) = true /\
  exists c, @LogNormal.cdf {| exp := fun _ => 1; ln := fun _ => 0 |} {| erfc := fun _ => 1 |}
    (LogNormal.mk 0 1) 3 = Ok c /\ (0 <=? c) = true /\ (c <=? 1) = true.
Proof.
  split; [vm_compute; reflexivity|].
  apply (proj2 (@cdf_in_unit_interval {| exp := fun _ => 1; ln := fun _ => 0 |}
                  {| erfc := fun _ => 1 |} 0 1 3
                  ltac:(vm_compute; reflexivity) ltac:(vm_compute; reflexivity)
                  ltac:(vm_compute; reflexivity) ltac:(intros; split; reflexivity)
                  ltac:(vm_compute; reflexivity))).
  intros; reflexivity.
Defined.

Lemma cdf_limits_witness :
  Libm.erfc_model infinity = 0 /\ Libm.erfc_model neg_infinity = 2 /\
  Libm.ln_model infinity = infinity /\
  @Normal.cdf Libm.erf (Normal.mk 0 1) neg_infinity = Ok 0 /\
  @Normal.cdf Libm.erf (Normal.mk 0 1) infinity = Ok 1 /\
  @LogNormal.cdf Libm.f64_math Libm.erf (LogNormal.mk 0 1) infinity = Ok 1.
Proof.
  do 3 (split; [vm_compute; reflexivity|]).
  pose proof (@cdf_limits Libm.f64_math Libm.erf 0 1
                ltac:(vm_compute; reflexivity) ltac:(vm_compute; reflexivity)
                ltac:(vm_compute; reflexivity) ltac:(vm_compute; reflexivity)
                ltac:(vm_compute; reflexivity)) as (H1 & H2 & _ & H4).
  split; [exact H1|]. split; [exact H2|]. apply H4. vm_compute. reflexivity.
Defined.

Lemma sample_unchecked_draws_pairs_witness :
  let s := 0.75 :: 0.25 :: 0.625 :: 0.625 :: nil in
  @sample_unchecked Libm.f64_math _ _ 1 s 0 1 = Some (0x1.7128ac8de74b5p+0, nil) /\
  exists k t v, (k <= 1)%nat /\
    (forall j, (j < k)%nat -> snd (@pair_outcome Libm.f64_math _ _ j s) = false) /\
    @pair_outcome Libm.f64_math _ _ k s = (t, v, true) /\
    nil = skip_draws (2 * S k) s /\
    0x1.7128ac8de74b5p+0 = 0 + 1 * t /\
    forall fuel' mean' std_dev', (1 <= fuel')%nat ->
      @sample_unchecked Libm.f64_math _ _ fuel' s mean' std_dev' =
        Some (mean' + std_dev' * t, nil).
Proof.
  intros s.
  assert (H : @sample_unchecked Libm.f64_math _ _ 1 s 0 1 = Some (0x1.7128ac8de74b5p+0, nil))
    by (vm_compute; reflexivity).
  split; [exact H|].
  exact (@sample_unchecked_draws_pairs Libm.f64_math _ _ 1 s 0 1 _ _ H).
Defined.

Lemma lognormal_mode_median_mean_witness :
  is_finite 0 = true /\ (0 <? 1) = true /\
  (@LogNormal.mode {| exp := fun _ => 1; ln := fun _ => 0 |} (LogNormal.mk 0 1) <=?
   @LogNormal.mean {| exp := fun _ => 1; ln := fun _ => 0 |} (LogNormal.mk 0 1)) = true.
Proof.
  split; [reflexivity|]. split; [reflexivity|].
  pose proof (@lognormal_mode_median_mean {| exp := fun _ => 1; ln := fun _ => 0 |} 0 1
                ltac:(vm_compute; reflexivity) ltac:(vm_compute; reflexivity)
                ltac:(intros; reflexivity)) as (_ & H1 & H2).
  exact (leb_trans _ _ _ H1 H2).
Defined.

Lemma nan_input_gives_nan_witness :
  is_nan (Libm.exp_model nan) = true /\ is_nan (Libm.ln_model nan) = true /\
  is_nan (Libm.erfc_model nan) = true /\
  is_nan (@LogNormal.pdf Libm.f64_math (LogNormal.mk 0 1) nan) = true.
Proof.
  do 3 (split; [vm_compute; reflexivity|]).
  pose proof (@nan_input_gives_nan Libm.f64_math Libm.erf (Normal.mk 0 1) (LogNormal.mk 0 1)
                ltac:(vm_compute; reflexivity) ltac:(vm_compute; reflexivity)
                ltac:(vm_compute; reflexivity)) as (_ & _ & _ & H & _).
  exact H.
Defined.

Lemma normal_variance_nonneg_witness :
  Normal.new 0 1 = Ok (Normal.mk 0 1) /\ (0 <=? Normal.variance (Normal.mk 0 1)) = true.
Proof.
  split; [reflexivity|].
  exact (normal_variance_nonneg 0 1 (Normal.mk 0 1) ltac:(reflexivity)).
Defined.

(** ** Counterexamples, evaluated with the reference [exp], [ln], [erfc] *)

(** C4: [LogNormal::new(0, 1)] succeeds but its [mean()] is
    [exp(0.5) ~ 1.6487], not [0], and its [std_dev()] is
    [sqrt((e - 1) e) ~ 2.1612], not [1]. *)
Lemma lognormal_accessors_not_arguments :
  LogNormal.new 0 1 = Ok (LogNormal.mk 0 1) /\
  @LogNormal.mean Libm.f64_math (LogNormal.mk 0 1) <> 0 /\
  @LogNormal.std_dev Libm.f64_math (LogNormal.mk 0 1) <> 1.
Proof.
  split; [reflexivity|]. split; apply float_neq; vm_compute; reflexivity.
Qed.

(** C8: [Normal::new(0, +inf)] succeeds; [cdf(0)] is [Ok(0.5)] while
    [cdf(+inf)] is [Ok(NaN)] ([(0 - inf) / (inf * SQRT_2)] is NaN), so
    [0 <= +inf] but [cdf(0) <= cdf(+inf)] fails. *)
Lemma normal_cdf_not_monotone_infinite_sigma :
  Normal.new 0 infinity = Ok (Normal.mk 0 infinity) /\
  (0 <=? infinity) = true /\
  @Normal.cdf Libm.erf (Normal.mk 0 infinity) 0 = Ok 0.5 /\
  @Normal.cdf Libm.erf (Normal.mk 0 infinity) infinity = Ok nan /\
  (0.5 <=? nan) = false.
Proof. vm_compute. repeat split. Qed.

(** C9: [Normal::new(-2^1023, +inf)] succeeds; at the finite [x = 2^1023]
    the difference [x - mu] overflows to [+inf], [d = inf / inf] is NaN and
    [pdf(x)] is NaN, not [0]. *)
Lemma normal_pdf_nan_infinite_sigma :
  Normal.new (-0x1p+1023) infinity = Ok (Normal.mk (-0x1p+1023) infinity) /\
  is_finite 0x1p+1023 = true /\
  is_nan (@Normal.pdf Libm.f64_math (Normal.mk (-0x1p+1023) infinity) 0x1p+1023) = true.
Proof. vm_compute. repeat split. Qed.

(** C10: [LogNormal::new(-inf, 1)] succeeds; at [x = 0],
    [mu - ln 0 = -inf - (-inf)] is NaN and [cdf(0)] is [Ok(NaN)], not
    [Ok(0)]. *)
Lemma lognormal_cdf_zero_nan :
  LogNormal.new neg_infinity 1 = Ok (LogNormal.mk neg_infinity 1) /\
  @LogNormal.cdf Libm.f64_math Libm.erf (LogNormal.mk neg_infinity 1) 0 = Ok nan.
Proof. vm_compute. repeat split. Qed.
